(** * Perturbation feature importance (pyinterpret / Skater)

    A shallow embedding of
    [pyinterpret/core/global_interpretation/feature_importance.py]:
    the class [FeatureImportance] with its two methods
    [feature_importance] and [plot_feature_importance], together with
    the parts of numpy and pandas the two methods call.

    - Numbers are kept behind the interface [Num]; its two instances are
      IEEE binary64 (numpy's [float64], Rocq's primitive floats) and the
      real numbers (exact arithmetic).
    - pandas data frames are objects: they live in a store and are
      reached through references, so that [copy()] and item assignment
      are what they are in Python.
    - Calls run in a state-and-exception monad over a [world] that holds
      the store, the random source, the model's own state and the trace
      of the calls made to the model and to the sampler.

    What is read into the libraries: a [dict] and the [Series] built
    from it keep insertion order; the columns of a frame are numeric;
    the predictions of a model are a two-dimensional array (the [n]
    predictions of a regression are the array of shape [(n, 1)]); a sum
    adds from zero, left to right; operands of different lengths are
    refused with [ValueError]. *)

From Stdlib Require Import ZArith Floats Reals Lra Permutation Sorted.
From stdpp Require Import base option list gmap strings.

Local Open Scope string_scope.
Local Open Scope list_scope.

(* ------------------------------------------------------------------ *)
(** ** Arithmetic *)

(** The scalar operations numpy and pandas apply to the entries of an
    array: [fof_nat] is the conversion of an element count to a scalar,
    [fltb] the strict comparison used for sorting, [fisnan] the missing
    value test ([pandas.isnull]). *)
Class Num (F : Type) := {
  fzero : F;
  fadd : F -> F -> F;
  fsub : F -> F -> F;
  fmul : F -> F -> F;
  fdiv : F -> F -> F;
  fsqrt : F -> F;
  fof_nat : nat -> F;
  fltb : F -> F -> bool;
  fisnan : F -> bool
}.

(** numpy's [float64]. *)
#[export] Instance float_Num : Num float := {|
  fzero := 0%float;
  fadd := PrimFloat.add;
  fsub := PrimFloat.sub;
  fmul := PrimFloat.mul;
  fdiv := PrimFloat.div;
  fsqrt := PrimFloat.sqrt;
  fof_nat := fun n => PrimFloat.of_uint63 (Uint63.of_Z (Z.of_nat n));
  fltb := PrimFloat.ltb;
  fisnan := PrimFloat.is_nan
|}.

(** Exact arithmetic: no rounding, no overflow, no missing value. *)
#[export] Instance real_Num : Num R := {|
  fzero := 0%R;
  fadd := Rplus;
  fsub := Rminus;
  fmul := Rmult;
  fdiv := Rdiv;
  fsqrt := R_sqrt.sqrt;
  fof_nat := INR;
  fltb := fun x y => if Rlt_dec x y then true else false;
  fisnan := fun _ => false
|}.

(* ------------------------------------------------------------------ *)
(** ** Exceptions and results *)

(** A raised Python exception: its class and its message. *)
Inductive exn := Exn (cls : string) (msg : string).

Inductive result (A : Type) :=
  | Ok (a : A)
  | Raise (e : exn).
Arguments Ok {A} a.
Arguments Raise {A} e.

Definition KeyError (k : string) : exn := Exn "KeyError" k.
Definition ValueError (msg : string) : exn := Exn "ValueError" msg.
Definition StopIteration : exn := Exn "StopIteration" "".
Definition ConfigurationError (msg : string) : exn := Exn "ConfigurationError" msg.
Definition MatplotlibUnavailableError (msg : string) : exn :=
  Exn "MatplotlibUnavailableError" msg.
Definition MatplotlibDisplayError (msg : string) : exn :=
  Exn "MatplotlibDisplayError" msg.

(* ------------------------------------------------------------------ *)
(** ** numpy *)

Section Numpy.
Context {F : Type} {N : Num F}.

(** A two-dimensional array of shape [(nrows, ncols)], row by row. *)
Record ndarray := NdArray {
  nrows : nat;
  ncols : nat;
  rows : list (list F)
}.

(** The arrays numpy can build: [nrows] rows of [ncols] entries. *)
Definition well_shaped (a : ndarray) : Prop :=
  length (rows a) = nrows a /\ Forall (fun r => length r = ncols a) (rows a).

(** [np.sum] of a one-dimensional array. *)
Definition np_sum (v : list F) : F := fold_left fadd v fzero.

(** [np.mean] of a one-dimensional array: the sum over the count. *)
Definition np_mean (v : list F) : F := fdiv (np_sum v) (fof_nat (length v)).

(** [np.sum(a, axis=0)]: the rows are added up entry by entry. *)
Definition np_sum_axis0 (a : ndarray) : list F :=
  fold_left (zip_with fadd) (rows a) (replicate (ncols a) fzero).

(** [np.std(a, axis=0)] with [ddof = 0], as numpy's [_var] and [_std]
    compute it: the mean of every column, the deviations from it, their
    squares, the mean of the squares, the square root. *)
Definition np_std_axis0 (a : ndarray) : list F :=
  let rcount := fof_nat (nrows a) in
  let arrmean := map (fun s => fdiv s rcount) (np_sum_axis0 a) in
  let x := map (fun r => zip_with fsub r arrmean) (rows a) in
  let x2 := map (map (fun d => fmul d d)) x in
  let ret := np_sum_axis0 (NdArray (nrows a) (ncols a) x2) in
  map (fun s => fsqrt (fdiv s rcount)) ret.

(** Broadcasting of one dimension against another. *)
Definition broadcast_dim (x y : nat) : option nat :=
  if Nat.eqb x y then Some x
  else if Nat.eqb x 1 then Some y
  else if Nat.eqb y 1 then Some x
  else None.

(** An array stretched to the shape [(n, k)]: a dimension of length one
    is repeated. *)
Definition broadcast_to (n k : nat) (a : ndarray) : list (list F) :=
  let stretch_row (r : list F) :=
    if Nat.eqb (ncols a) k then r else replicate k (hd fzero r) in
  let rs := map stretch_row (rows a) in
  if Nat.eqb (nrows a) n then rs else replicate n (hd [] rs).

(** [a - b] on arrays: entry by entry after broadcasting; shapes that do
    not broadcast raise [ValueError]. *)
Definition nd_sub (a b : ndarray) : result ndarray :=
  match broadcast_dim (nrows a) (nrows b), broadcast_dim (ncols a) (ncols b) with
  | Some n, Some k =>
      Ok (NdArray n k
            (zip_with (zip_with fsub) (broadcast_to n k a) (broadcast_to n k b)))
  | _, _ => Raise (ValueError "operands could not be broadcast together")
  end.

(** *** The reduction as the specification words it

    Section 4.3, step f: for each output dimension, the standard
    deviation of the delta across the rows; then the average of these
    over the output dimensions. *)

(** Column [j] of an array: entry [j] of every row. *)
Definition column (a : ndarray) (j : nat) : list F :=
  map (fun r => nth j r fzero) (rows a).

(** The (population) standard deviation of a list of values. *)
Definition stddev (xs : list F) : F :=
  let n := fof_nat (length xs) in
  let mu := fdiv (np_sum xs) n in
  fsqrt (fdiv (np_sum (map (fun x => fmul (fsub x mu) (fsub x mu)) xs)) n).

Definition spec_importance (delta : ndarray) : F :=
  let per_dimension := map (fun j => stddev (column delta j)) (seq 0 (ncols delta)) in
  fdiv (np_sum per_dimension) (fof_nat (ncols delta)).

End Numpy.
Arguments ndarray F : clear implicits.

(* ------------------------------------------------------------------ *)
(** ** Python dictionaries and pandas *)

Section Pandas.
Context {F : Type} {N : Num F}.

(** A [dict] with string keys, in insertion order: assigning to a key
    that is present keeps its place. *)
Fixpoint alist_get {V : Type} (d : list (string * V)) (k : string) : option V :=
  match d with
  | [] => None
  | (k', v) :: d' => if String.eqb k' k then Some v else alist_get d' k
  end.

Fixpoint alist_set {V : Type} (d : list (string * V)) (k : string) (v : V)
  : list (string * V) :=
  match d with
  | [] => [(k, v)]
  | (k', v') :: d' =>
      if String.eqb k' k then (k', v) :: d' else (k', v') :: alist_set d' k v
  end.

(** The dictionary after the assignments [d[k] = v] for the items
    [(k, v)], in order. *)
Definition assign_all {V : Type} (d : list (string * V)) (items : list (string * V))
  : list (string * V) :=
  fold_left (fun d kv => alist_set d (fst kv) (snd kv)) items d.

(** A [DataFrame] of numeric columns: the length of its index and its
    named columns, in column order. *)
Record DataFrame := MkDataFrame {
  index_len : nat;
  columns : list (string * list F)
}.

(** [X[feature_id]]. *)
Definition df_getitem (X : DataFrame) (feature_id : string) : result (list F) :=
  match alist_get (columns X) feature_id with
  | Some c => Ok c
  | None => Raise (KeyError feature_id)
  end.

(** [X[feature_id] = values]: the column is replaced (or added after
    the others); values of another length than the index are refused. *)
Definition df_setitem (X : DataFrame) (feature_id : string) (values : list F)
  : result DataFrame :=
  if Nat.eqb (length values) (index_len X)
  then Ok (MkDataFrame (index_len X) (alist_set (columns X) feature_id values))
  else Raise (ValueError "Length of values does not match length of index").

(** [column - samples], a column of a frame minus an array. *)
Definition series_sub (column samples : list F) : result (list F) :=
  if Nat.eqb (length column) (length samples)
  then Ok (zip_with fsub column samples)
  else Raise (ValueError "operands could not be broadcast together").

(** A [Series] indexed by feature identifier. *)
Definition Series := list (string * F).

(** [pd.Series(d)] of a dictionary: its items in the dictionary's order. *)
Definition Series_of_dict (d : list (string * F)) : Series := d.

(** The sorting algorithm behind [sort_values]: it receives the entries
    whose value is not missing and returns them in sorted order. The
    source passes no [kind], so it is pandas' default. *)
Definition sort_kind := list (string * F) -> list (string * F).

(** [s.sort_values()]: ascending, the missing values last
    ([na_position='last']) in their original order. *)
Definition sort_values (kind : sort_kind) (s : Series) : Series :=
  kind (List.filter (fun kv => negb (fisnan (snd kv))) s)
    ++ List.filter (fun kv => fisnan (snd kv)) s.

(** [s.sum()]: missing values are skipped ([skipna=True]), that is,
    counted as zero. *)
Definition Series_sum (s : Series) : F :=
  np_sum (map (fun kv => if fisnan (snd kv) then fzero else snd kv) s).

(** [s / d] for a scalar [d]. *)
Definition Series_div (s : Series) (d : F) : Series :=
  map (fun kv => (fst kv, fdiv (snd kv) d)) s.

(** The sum of the scores of a result, every entry counted. *)
Definition total (s : Series) : F := np_sum (map snd s).

(** Insertion sort on the values, the way numpy sorts a short array:
    each entry moves left past the entries strictly greater than it. *)
Fixpoint insert_sorted (kv : string * F) (l : list (string * F))
  : list (string * F) :=
  match l with
  | [] => [kv]
  | kv' :: l' =>
      if fltb (snd kv) (snd kv') then kv :: kv' :: l'
      else kv' :: insert_sorted kv l'
  end.

Definition insertion_sort : sort_kind :=
  fun l => fold_left (fun acc kv => insert_sorted kv acc) l [].

(** *** numpy's default sorting kind

    [sort_values] passes its [kind], by default ['quicksort'], to
    numpy's [argsort]. numpy's quicksort (npysort, [aquicksort]) sorts a
    range of at most 17 entries by insertion and partitions a longer
    one around the median of its first, middle and last entry; numpy
    documents it as not stable. *)

Definition entry_at (a : list (string * F)) (i : nat) : string * F :=
  nth i a ("", fzero).

Definition LT (x y : string * F) : bool := fltb (snd x) (snd y).

Definition swap (i j : nat) (a : list (string * F)) : list (string * F) :=
  <[i := entry_at a j]> (<[j := entry_at a i]> a).

(** [do ++pi; while (LT(v[*pi], vp));] *)
Fixpoint scan_up (fuel : nat) (a : list (string * F)) (vp : string * F) (pi : nat)
  : nat :=
  match fuel with
  | 0 => S pi
  | S fuel' =>
      if LT (entry_at a (S pi)) vp then scan_up fuel' a vp (S pi) else S pi
  end.

(** [do --pj; while (LT(vp, v[*pj]));] *)
Fixpoint scan_down (fuel : nat) (a : list (string * F)) (vp : string * F) (pj : nat)
  : nat :=
  match fuel with
  | 0 => pred pj
  | S fuel' =>
      if LT vp (entry_at a (pred pj)) then scan_down fuel' a vp (pred pj)
      else pred pj
  end.

(** The partition loop: the two scans, then a swap, until they meet. *)
Fixpoint partition_loop (fuel : nat) (a : list (string * F)) (vp : string * F)
  (pi pj : nat) : list (string * F) * nat :=
  match fuel with
  | 0 => (a, pi)
  | S fuel' =>
      let pi := scan_up (length a) a vp pi in
      let pj := scan_down (length a) a vp pj in
      if Nat.leb pj pi then (a, pi)
      else partition_loop fuel' (swap pi pj a) vp pi pj
  end.

(** The inner loop of the insertion sort: the entries greater than [vi]
    move one place up, [vi] takes the place that is left. *)
Fixpoint sift_down (fuel : nat) (a : list (string * F)) (vi : string * F)
  (pl pj : nat) : list (string * F) :=
  match fuel with
  | 0 => <[pj := vi]> a
  | S fuel' =>
      if Nat.ltb pl pj && LT vi (entry_at a (pred pj))
      then sift_down fuel' (<[pj := entry_at a (pred pj)]> a) vi pl (pred pj)
      else <[pj := vi]> a
  end.

Definition insertion_range (a : list (string * F)) (pl pr : nat)
  : list (string * F) :=
  fold_left (fun a pi => sift_down (length a) a (entry_at a pi) pl pi)
    (seq (S pl) (pr - pl)) a.

(** The range from [pl] to [pr]. [depth] bounds the nesting of the
    partitions; where numpy, at that bound, turns to heapsort, the range
    is sorted by insertion here. *)
Fixpoint aquicksort (depth : nat) (a : list (string * F)) (pl pr : nat)
  : list (string * F) :=
  match depth with
  | 0 => insertion_range a pl pr
  | S depth' =>
      if Nat.ltb 16 (pr - pl) then
        let pm := pl + (pr - pl) / 2 in
        let a := if LT (entry_at a pm) (entry_at a pl) then swap pm pl a else a in
        let a := if LT (entry_at a pr) (entry_at a pm) then swap pr pm a else a in
        let a := if LT (entry_at a pm) (entry_at a pl) then swap pm pl a else a in
        let vp := entry_at a pm in
        let a := swap pm (pr - 1) a in
        let (a, pi) := partition_loop (length a) a vp pl (pr - 1) in
        let a := swap pi (pr - 1) a in
        let a := aquicksort depth' a pl (pi - 1) in
        aquicksort depth' a (pi + 1) pr
      else insertion_range a pl pr
  end.

Definition numpy_quicksort : sort_kind :=
  fun l => aquicksort (2 * Nat.log2 (length l)) l 0 (length l - 1).

(** *** Normalization as the specification words it

    Section 4.4: sort ascending by raw score, ties in insertion order;
    then divide every score by the sum of all raw scores. *)
Definition spec_normalize (raw : list (string * F)) : Series :=
  let sorted := insertion_sort raw in
  map (fun kv => (fst kv, fdiv (snd kv) (total raw))) sorted.

(** Sorted by ascending value: no entry is greater than the next. *)
Definition ascending (s : list (string * F)) : Prop :=
  Sorted (fun x y => fltb (snd y) (snd x) = false) s.

End Pandas.
Arguments DataFrame F : clear implicits.
Arguments Series F : clear implicits.
Arguments sort_kind F : clear implicits.

(* ------------------------------------------------------------------ *)
(** ** The world the engine runs in *)

(** A reference to a pandas object. *)
Definition loc := positive.

Section Engine.
Context {F : Type} {N : Num F}.

(** The model is a black box with a state of its own, [MS]: given a
    table, [predict] returns the predictions or raises, and moves to its
    next state. It is handed the contents of the table: by its contract
    (section 4.2) it has no effect on the tables themselves. *)
Context {MS : Type}.
Variable predict : MS -> DataFrame F -> result (ndarray F) * MS.

(** The sorting algorithm of pandas' [sort_values] default. *)
Variable kind : sort_kind F.

(** [util.plotting.COLORS], the palette. *)
Variable COLORS : list string.

(** What the engine asks of its collaborators, in the order it asks. *)
Inductive event :=
  | EvPredict (X : DataFrame F) (r : result (ndarray F))
  | EvSample (feature_id : string) (n_samples : nat) (method : string)
  | EvPlot (s : Series F) (color : string) (ax : option loc).

Record world := World {
  heap : gmap loc (DataFrame F);
  rng : list nat;
  model_state : MS;
  trace : list event
}.

(** A computation: it reads and changes the world, and returns a value
    or raises. The world of a raising computation is the one reached
    when the exception was raised. *)
Definition M (A : Type) : Type := world -> result A * world.

Definition ret {A : Type} (a : A) : M A := fun w => (Ok a, w).

Definition raise {A : Type} (e : exn) : M A := fun w => (Raise e, w).

Definition bind {A B : Type} (c : M A) (k : A -> M B) : M B :=
  fun w =>
    match c w with
    | (Ok a, w') => k a w'
    | (Raise e, w') => (Raise e, w')
    end.

Definition lift {A : Type} (r : result A) : M A := fun w => (r, w).

Notation "'let*' x := c 'in' k" := (bind c (fun x => k))
  (at level 10, x name, c at level 100, k at level 200).

(** A [for] loop that threads the loop's variables through its body. *)
Fixpoint for_each {A S : Type} (l : list A) (body : S -> A -> M S) (s : S) : M S :=
  match l with
  | [] => ret s
  | a :: l' => let* s' := body s a in for_each l' body s'
  end.

Definition dangling : exn := Exn "ReferenceError" "no such object".

(** The frame a reference points to. *)
Definition deref (l : loc) : M (DataFrame F) :=
  fun w =>
    match heap w !! l with
    | Some X => (Ok X, w)
    | None => (Raise dangling, w)
    end.

Definition store (l : loc) (X : DataFrame F) : M unit :=
  fun w => (Ok tt, World (<[l := X]> (heap w)) (rng w) (model_state w) (trace w)).

(** [X.copy()]: a new frame with the same contents. *)
Definition df_copy (l : loc) : M loc :=
  let* X := deref l in
  fun w =>
    let l' := fresh (dom (heap w)) in
    (Ok l', World (<[l' := X]> (heap w)) (rng w) (model_state w) (trace w)).

(** [X[feature_id]] and [X[feature_id] = values] through a reference. *)
Definition getitem (l : loc) (feature_id : string) : M (list F) :=
  let* X := deref l in lift (df_getitem X feature_id).

Definition setitem (l : loc) (feature_id : string) (values : list F) : M unit :=
  let* X := deref l in
  let* X' := lift (df_setitem X feature_id values) in
  store l X'.

Definition log (e : event) : M unit :=
  fun w => (Ok tt, World (heap w) (rng w) (model_state w) (trace w ++ [e])).

(** [modelinstance.predict(X)]. *)
Definition call_predict (l : loc) : M (ndarray F) :=
  let* X := deref l in
  fun w =>
    let (r, ms) := predict (model_state w) X in
    (r, World (heap w) (rng w) ms (trace w ++ [EvPredict X r])).

(** *** The data set *)

(** Modelled from the spec: the class [DataSet] is not in the sources.
    Section 4.1: it owns the table ([data]) and the ordered feature
    identifiers ([feature_ids]). *)
Record DataSet := MkDataSet {
  data : loc;
  feature_ids : list string
}.

Variable data_set : DataSet.

(** [np.random.choice(column, size=n)]: [n] draws with replacement from
    the values of a column, the random source giving the positions.
    Nothing can be drawn from a column without values. *)
Fixpoint random_draws (column : list F) (n : nat) (r : list nat)
  : list F * list nat :=
  match n with
  | 0 => ([], r)
  | S n' =>
      let x := nth (hd 0 r mod length column) column fzero in
      let (xs, r') := random_draws column n' (tl r) in
      (x :: xs, r')
  end.

Definition random_choice (column : list F) (n : nat) (r : list nat)
  : result (list F) * list nat :=
  match column, n with
  | [], S _ => (Raise (ValueError "a must be non-empty"), r)
  | _, _ => let (xs, r') := random_draws column n r in (Ok xs, r')
  end.

(** Modelled from the spec: [DataSet.generate_column_sample] is not in
    the sources. Section 4.1: the only sampling method is
    ["random-choice"], [n_samples] values drawn independently, with
    replacement, from the observed values of the column; any other
    method fails with [ConfigurationError]. *)
Definition generate_column_sample (feature_id : string) (n_samples : nat)
  (method : string) : M (list F) :=
  let* _ := log (EvSample feature_id n_samples method) in
  if negb (String.eqb method "random-choice")
  then raise (ConfigurationError method)
  else
    let* column := getitem (data data_set) feature_id in
    fun w =>
      let (samples, r') := random_choice column n_samples (rng w) in
      (samples, World (heap w) r' (model_state w) (trace w)).

(** *** FeatureImportance *)

(** The body of the loop over the feature identifiers (lines 63 to 70). *)
Definition perturb_feature (original_predictions : ndarray F) (n : nat)
  (importances : list (string * F)) (feature_id : string)
  : M (list (string * F)) :=
  let* X_mutable := df_copy (data data_set) in
  let* samples := generate_column_sample feature_id n "random-choice" in
  let* column := getitem X_mutable feature_id in
  let* feature_perturbations := lift (series_sub column samples) in
  let* _ := setitem X_mutable feature_id samples in
  let* new_predictions := call_predict X_mutable in
  let* changes_in_predictions := lift (nd_sub new_predictions original_predictions) in
  let importance := np_mean (np_std_axis0 changes_in_predictions) in
  ret (alist_set importances feature_id importance).

(** Lines 55 to 70: the dictionary of the raw importances. *)
Definition raw_importances : M (list (string * F)) :=
  let* original_predictions := call_predict (data data_set) in
  let n := nrows original_predictions in
  for_each (feature_ids data_set) (perturb_feature original_predictions n) [].

(** Lines 72 and 73. *)
Definition normalize (importances : list (string * F)) : Series F :=
  let importances := sort_values kind (Series_of_dict importances) in
  Series_div importances (Series_sum importances).

Definition feature_importance : M (Series F) :=
  let* importances := raw_importances in
  ret (normalize importances).

(** The outcome of [from matplotlib import pyplot]. *)
Inductive import_outcome :=
  | Imported
  | ImportRaises (e : exn).

(** The classes an [except ImportError] and an [except RuntimeError]
    clause catch: the class and its built-in subclasses. *)
Definition ImportError_classes : list string :=
  ["ImportError"; "ModuleNotFoundError"].
Definition RuntimeError_classes : list string :=
  ["RuntimeError"; "NotImplementedError"; "RecursionError"].

Definition caught_by (classes : list string) (e : exn) : bool :=
  match e with
  | Exn cls _ => existsb (String.eqb cls) classes
  end.

(** [plot_feature_importance(predict_fn, ax)]: the import of the
    plotting library first, then the importances, then the bar chart in
    the first colour of the palette. *)
Definition plot_feature_importance (pyplot : import_outcome) (ax : option loc)
  : M unit :=
  match pyplot with
  | ImportRaises e =>
      if caught_by ImportError_classes e
      then raise (MatplotlibUnavailableError
                    "Matplotlib is required but unavailable on your system.")
      else if caught_by RuntimeError_classes e
      then raise (MatplotlibDisplayError "Matplotlib unable to open display")
      else raise e
  | Imported =>
      let* importances := feature_importance in
      match COLORS with
      | [] => raise StopIteration
      | color :: _ => log (EvPlot (sort_values kind importances) color ax)
      end
  end.

(* ------------------------------------------------------------------ *)
(** ** What one run does, as a relation *)

(** The table handed to the model for one feature: the samples drawn
    for the column and the copy of [D] with the column overwritten, or
    the exception of lines 64 to 66. *)
Definition perturbed (D : DataFrame F) (feature_id : string) (n : nat)
  (r : list nat) : result (list F * DataFrame F) * list nat :=
  match df_getitem D feature_id with
  | Raise e => (Raise e, r)
  | Ok column =>
      match random_choice column n r with
      | (Raise e, r') => (Raise e, r')
      | (Ok samples, r') =>
          match series_sub column samples with
          | Raise e => (Raise e, r')
          | Ok _ =>
              match df_setitem D feature_id samples with
              | Raise e => (Raise e, r')
              | Ok X => (Ok (samples, X), r')
              end
          end
      end
  end.

(** The score of one feature (line 69). *)
Definition importance_of (changes_in_predictions : ndarray F) : F :=
  np_mean (np_std_axis0 changes_in_predictions).

(** One pass through the body of the loop, for the data set [D] and the
    baseline [P0]: the events it adds to the trace and its outcome. *)
Inductive iteration (P0 : ndarray F) (n : nat) (D : DataFrame F)
  (imp : list (string * F)) (f : string) (r : list nat) (ms : MS)
  : list event -> result (list (string * F)) -> list nat -> MS -> Prop :=
  | it_refused e r' :
      perturbed D f n r = (Raise e, r') ->
      iteration P0 n D imp f r ms
        [EvSample f n "random-choice"] (Raise e) r' ms
  | it_predict_raises samples X e r' ms' :
      perturbed D f n r = (Ok (samples, X), r') ->
      predict ms X = (Raise e, ms') ->
      iteration P0 n D imp f r ms
        [EvSample f n "random-choice"; EvPredict X (Raise e)] (Raise e) r' ms'
  | it_shapes_differ samples X P e r' ms' :
      perturbed D f n r = (Ok (samples, X), r') ->
      predict ms X = (Ok P, ms') ->
      nd_sub P P0 = Raise e ->
      iteration P0 n D imp f r ms
        [EvSample f n "random-choice"; EvPredict X (Ok P)] (Raise e) r' ms'
  | it_scored samples X P changes r' ms' :
      perturbed D f n r = (Ok (samples, X), r') ->
      predict ms X = (Ok P, ms') ->
      nd_sub P P0 = Ok changes ->
      iteration P0 n D imp f r ms
        [EvSample f n "random-choice"; EvPredict X (Ok P)]
        (Ok (alist_set imp f (importance_of changes))) r' ms'.

(** The loop over the feature identifiers. *)
Inductive loop (P0 : ndarray F) (n : nat) (D : DataFrame F)
  : list string -> list (string * F) -> list nat -> MS ->
    list event -> result (list (string * F)) -> list nat -> MS -> Prop :=
  | loop_done imp r ms :
      loop P0 n D [] imp r ms [] (Ok imp) r ms
  | loop_raises f fs imp r ms evs e r' ms' :
      iteration P0 n D imp f r ms evs (Raise e) r' ms' ->
      loop P0 n D (f :: fs) imp r ms evs (Raise e) r' ms'
  | loop_next f fs imp r ms evs imp' r' ms' evs' res r'' ms'' :
      iteration P0 n D imp f r ms evs (Ok imp') r' ms' ->
      loop P0 n D fs imp' r' ms' evs' res r'' ms'' ->
      loop P0 n D (f :: fs) imp r ms (evs ++ evs') res r'' ms''.

(** Lines 55 to 70 as a whole. *)
Inductive raw_run (D : DataFrame F) (r : list nat) (ms : MS)
  : list event -> result (list (string * F)) -> list nat -> MS -> Prop :=
  | raw_baseline_raises e ms' :
      predict ms D = (Raise e, ms') ->
      raw_run D r ms [EvPredict D (Raise e)] (Raise e) r ms'
  | raw_baseline P0 ms' evs res r'' ms'' :
      predict ms D = (Ok P0, ms') ->
      loop P0 (nrows P0) D (feature_ids data_set) [] r ms' evs res r'' ms'' ->
      raw_run D r ms (EvPredict D (Ok P0) :: evs) res r'' ms''.

(** The score that the outcome of one call to the model leads to: the
    reduction, in the words of the specification, of its difference to
    the baseline [P0]. *)
Definition scored_by (P0 : ndarray F) (call : DataFrame F * result (ndarray F))
  (score : F) : Prop :=
  exists P_f delta,
    snd call = Ok P_f
    /\ nd_sub P_f P0 = Ok delta
    /\ score = spec_importance delta.

(** What the table handed to the model for feature [f] is: the data
    set [D] with the column of [f] overwritten by [n] samples. *)
Definition working_copy_of (D : DataFrame F) (n : nat) (f : string)
  (call : DataFrame F * result (ndarray F)) : Prop :=
  exists samples,
    length samples = n
    /\ df_setitem D f samples = Ok (fst call).

(** The tables handed to the model and what it returned, in order. *)
Definition predict_calls (evs : list event)
  : list (DataFrame F * result (ndarray F)) :=
  omap (fun e => match e with EvPredict X r => Some (X, r) | _ => None end) evs.

(** The samples asked of the data set, in order. *)
Definition sample_calls (evs : list event) : list (string * nat * string) :=
  omap (fun e => match e with EvSample f n m => Some (f, n, m) | _ => None end) evs.

End Engine.
Arguments event F : clear implicits.
Arguments world F MS : clear implicits.
Arguments M F MS A : clear implicits.

(* ------------------------------------------------------------------ *)
(** ** Models and data sets to run the engine on *)

Section Models.
Context {F : Type} {N : Num F}.

(** A column as the [(n, 1)] array a regression model returns. *)
Definition as_predictions (c : list F) : ndarray F :=
  NdArray (length c) 1 (map (fun x => [x]) c).

(** [predict(x) = x[f]]; the state counts the calls. *)
Definition model_column (f : string) (calls : nat) (X : DataFrame F)
  : result (ndarray F) * nat :=
  match df_getitem X f with
  | Ok c => (Ok (as_predictions c), S calls)
  | Raise e => (Raise e, S calls)
  end.

(** [predict(x) = x[f1] + x[f2]]. *)
Definition model_sum (f1 f2 : string) (calls : nat) (X : DataFrame F)
  : result (ndarray F) * nat :=
  match df_getitem X f1, df_getitem X f2 with
  | Ok c1, Ok c2 => (Ok (as_predictions (zip_with fadd c1 c2)), S calls)
  | Raise e, _ | _, Raise e => (Raise e, S calls)
  end.

(** [predict(x) = c], whatever the table. *)
Definition model_constant (rows : nat) (c : F) (calls : nat) (X : DataFrame F)
  : result (ndarray F) * nat :=
  (Ok (NdArray rows 1 (replicate rows [c])), S calls).

(** A model that answers like [model_column f] but fails on its call
    number [bad] (counted from zero). *)
Definition model_failing (f : string) (bad : nat) (calls : nat) (X : DataFrame F)
  : result (ndarray F) * nat :=
  if Nat.eqb calls bad
  then (Raise (Exn "RuntimeError" "model failure"), S calls)
  else model_column f calls X.

(** A world with one frame, the data set's, at reference 1. *)
Definition world_of (D : DataFrame F) (tape : list nat) : world F nat :=
  World {[ 1%positive := D ]} tape 0 [].

End Models.

(** The scenario of section 8: two features, four rows, and the model
    [predict(x) = x[f1] + x[f2]]. *)
Definition scenario_frame : DataFrame float :=
  MkDataFrame 4 [("f1", [1; 2; 3; 4]%float); ("f2", [4; 3; 2; 1]%float)].
Definition scenario_set : DataSet := MkDataSet 1%positive ["f1"; "f2"].
Definition scenario_world : world float nat :=
  world_of scenario_frame [1; 0; 3; 2; 2; 2; 0; 1].
Definition scenario_run : result (Series float) * world float nat :=
  feature_importance (model_sum "f1" "f2") insertion_sort scenario_set scenario_world.
Definition scenario_result : Series float :=
  match fst scenario_run with Ok s => s | Raise _ => [] end.

(** The same data with a model that fails on its second call. *)
Definition failing_run : result (Series float) * world float nat :=
  feature_importance (model_failing "f1" 1) insertion_sort scenario_set scenario_world.

(** The same data with a model that always predicts 1.5. *)
Definition constant_run : result (Series float) * world float nat :=
  feature_importance (model_constant 4 1.5%float) insertion_sort scenario_set
    scenario_world.

(** A data set without rows. *)
Definition empty_frame : DataFrame float := MkDataFrame 0 [("f1", []); ("f2", [])].
Definition empty_world : world float nat := world_of empty_frame [].
Definition empty_run : result (Series float) * world float nat :=
  feature_importance (model_constant 0 1.5%float) insertion_sort scenario_set
    empty_world.

(** Eighteen features of two rows each, and a model that reads only the
    first of them: the seventeen others tie at zero. *)
Definition tied_features : list string :=
  ["f00"; "f01"; "f02"; "f03"; "f04"; "f05"; "f06"; "f07"; "f08";
   "f09"; "f10"; "f11"; "f12"; "f13"; "f14"; "f15"; "f16"; "f17"].
Definition tied_frame : DataFrame float :=
  MkDataFrame 2 (map (fun f => (f, [1; 3]%float)) tied_features).
Definition tied_set : DataSet := MkDataSet 1%positive tied_features.
Definition tied_world : world float nat := world_of tied_frame [1; 0].
Definition tied_raw : list (string * float) :=
  match fst (raw_importances (model_column "f00") tied_set tied_world) with
  | Ok d => d
  | Raise _ => []
  end.
Definition tied_run : result (Series float) * world float nat :=
  feature_importance (model_column "f00") numpy_quicksort tied_set tied_world.

(** Two rows of exact numbers and the model [predict(x) = x[a]]. *)
Definition exact_frame : DataFrame R := MkDataFrame 2 [("a", [0; 2]%R)].
Definition exact_set : DataSet := MkDataSet 1%positive ["a"].
Definition exact_world : world R nat := world_of exact_frame [1; 0].
(* ------------------------------------------------------------------ *)
(** ** Tables, models and traces the later facts speak of *)

Section Contracts.
Context {F : Type} {N : Num F}.

(** A frame whose columns all have the length of its index. *)
Definition well_formed (X : DataFrame F) : Prop :=
  Forall (fun c => length (snd c) = index_len X) (columns X).

(** [X] has the rows and the column names of [D]: what a working copy
    of [D] keeps when one of its columns is overwritten. *)
Definition same_layout (D X : DataFrame F) : Prop :=
  index_len X = index_len D
  /\ map fst (columns X) = map fst (columns D)
  /\ well_formed X.

(** The charts drawn, in order. *)
Definition plot_calls (evs : list (event F))
  : list (Series F * string * option loc) :=
  omap (fun e => match e with EvPlot s c ax => Some (s, c, ax) | _ => None end) evs.

End Contracts.

(** A model whose outputs are those of [predict] in another unit: every
    predicted value [x] becomes [a * x + b]. *)
Definition rescale (a b : R) (P : ndarray R) : ndarray R :=
  NdArray (nrows P) (ncols P) (map (map (fun x => a * x + b)%R) (rows P)).

Definition rescaled {MS : Type} (a b : R)
  (predict : MS -> DataFrame R -> result (ndarray R) * MS)
  : MS -> DataFrame R -> result (ndarray R) * MS :=
  fun ms X =>
    let (r, ms') := predict ms X in
    (match r with Ok P => Ok (rescale a b P) | Raise e => Raise e end, ms').

(** Raw scores multiplied by [c], and the outcome of a run with its raw
    scores multiplied by [c]. *)
Definition scaled (c : R) (imp : list (string * R)) : list (string * R) :=
  map (fun kv => (fst kv, c * snd kv)%R) imp.

Definition scaled_outcome (c : R) (res : result (list (string * R)))
  : result (list (string * R)) :=
  match res with
  | Ok imp => Ok (scaled c imp)
  | Raise e => Raise e
  end.

(** Two outcomes of a call that are the same to its caller: the same
    score for every feature, or the same exception. *)
Definition same_scores (r1 r2 : result (Series R)) : Prop :=
  match r1, r2 with
  | Ok s1, Ok s2 => forall f, alist_get s2 f = alist_get s1 f
  | Raise e1, Raise e2 => e1 = e2
  | _, _ => False
  end.

(** A binary64 number that is not below zero: a missing value, a zero,
    a positive number or the positive infinity. *)
Definition not_negative (x : float) : Prop := PrimFloat.ltb x 0%float = false.

(** The raw scores that are there, and those that are missing (NaN). *)
Definition present (raw : list (string * float)) : list (string * float) :=
  List.filter (fun kv => negb (PrimFloat.is_nan (snd kv))) raw.

Definition missing (raw : list (string * float)) : list (string * float) :=
  List.filter (fun kv => PrimFloat.is_nan (snd kv)) raw.

(** An array that holds a missing value (NaN) in some entry. *)
Definition holds_nan (P : ndarray float) : Prop :=
  exists i j row, rows P !! i = Some row /\ row !! j = Some nan.

(** The same on the representation of a number: no negative sign,
    unless on a zero. *)
Definition sign_clear (s : spec_float) : bool :=
  match s with
  | S754_infinity true | S754_finite true _ _ => false
  | _ => true
  end.

(** No negative sign at all, the negative zero excluded too. *)
Definition sign_plus (s : spec_float) : bool :=
  match s with
  | S754_zero true | S754_infinity true | S754_finite true _ _ => false
  | _ => true
  end.

(** The scenario's data with a model that reads [f1] alone,
    [predict(x) = x[f1]]. *)
Definition ignoring_raw : list (string * float) :=
  match fst (raw_importances (model_column "f1") scenario_set scenario_world) with
  | Ok d => d
  | Raise _ => []
  end.

(** Four rows with a column that holds 7 in every row, and the model
    [predict(x) = x[f1] + x[c]]. *)
Definition constant_column_frame : DataFrame float :=
  MkDataFrame 4 [("f1", [1; 2; 3; 4]%float); ("c", [7; 7; 7; 7]%float)].
Definition constant_column_set : DataSet := MkDataSet 1%positive ["f1"; "c"].
Definition constant_column_world : world float nat :=
  world_of constant_column_frame [1; 0; 3; 2; 2; 2; 0; 1].
Definition constant_column_raw : list (string * float) :=
  match fst (raw_importances (model_sum "f1" "c") constant_column_set
               constant_column_world) with
  | Ok d => d
  | Raise _ => []
  end.

(** The raw scores of the scenario of section 8. *)
Definition scenario_raw : list (string * float) :=
  match fst (raw_importances (model_sum "f1" "f2") scenario_set scenario_world) with
  | Ok d => d
  | Raise _ => []
  end.

(** The scenario drawn, with a palette of two colours and no axes
    given. *)
Definition plot_run : result unit * world float nat :=
  plot_feature_importance (model_sum "f1" "f2") insertion_sort ["blue"; "red"]
    scenario_set Imported None scenario_world.

(** A model whose answers lose a row with every call: 1.5 in each of
    [4 - calls] rows. *)
Definition model_shrinking (calls : nat) (X : DataFrame float)
  : result (ndarray float) * nat :=
  (Ok (NdArray (4 - calls) 1 (replicate (4 - calls) [1.5%float])), S calls).
Definition shrinking_run : result (Series float) * world float nat :=
  feature_importance model_shrinking insertion_sort scenario_set scenario_world.

(** The scenario's data with one value missing, and the model
    [predict(x) = x[f1] + x[f2]]. *)
Definition gap_frame : DataFrame float :=
  MkDataFrame 4 [("f1", [1; 2; 3; 4]%float); ("f2", [4; nan; 2; 1]%float)].
Definition gap_world : world float nat :=
  world_of gap_frame [1; 0; 3; 2; 2; 2; 0; 1].

(** A model that answers like [predict(x) = x[f1]] but with missing
    values on its third call. *)
Definition model_blackout (calls : nat) (X : DataFrame float)
  : result (ndarray float) * nat :=
  if Nat.eqb calls 2
  then (Ok (NdArray 4 1 (replicate 4 [nan])), S calls)
  else model_column "f1" calls X.
Definition blackout_raw : list (string * float) :=
  match fst (raw_importances model_blackout scenario_set scenario_world) with
  | Ok d => d
  | Raise _ => []
  end.


(* ------------------------------------------------------------------ *)
(** ** The code against the relation *)

Section Facts.
Context {F : Type} {N : Num F} {MS : Type}.
Variable predict : MS -> DataFrame F -> result (ndarray F) * MS.
Variable kind : sort_kind F.
Variable COLORS : list string.
Variable data_set : DataSet.

Abbreviation world := (world F MS).
Abbreviation event := (event F).

Local Arguments np_mean : simpl never.
Local Arguments np_std_axis0 : simpl never.

Lemma fresh_not_data (h : gmap loc (DataFrame F)) (l : loc) (D : DataFrame F) :
  h !! l = Some D -> fresh (dom h) <> l.
Proof.
  intros Hl Heq.
  apply (is_fresh (dom h)). rewrite Heq. apply elem_of_dom. eauto.
Qed.

Lemma fresh_lookup_None (h : gmap loc (DataFrame F)) :
  h !! fresh (dom h) = None.
Proof. apply not_elem_of_dom, is_fresh. Qed.

(** One pass of the loop body does what [iteration] says, allocates one
    working copy and leaves every frame that existed as it was. *)
Lemma perturb_feature_sound P0 n imp f (w w' : world) res D :
  heap w !! data data_set = Some D ->
  perturb_feature predict data_set P0 n imp f w = (res, w') ->
  exists evs,
    iteration predict P0 n D imp f (rng w) (model_state w) evs res (rng w') (model_state w')
    /\ trace w' = trace w ++ evs
    /\ heap w ⊆ heap w'.
Proof.
  intros HD Hrun.
  pose proof (fresh_not_data _ _ _ HD) as Hne.
  pose proof (fresh_lookup_None (heap w)) as Hfresh.
  unfold perturb_feature, df_copy, generate_column_sample, getitem,
    setitem, call_predict, deref, store, log, bind, lift, raise, ret in Hrun.
  cbn in Hrun. rewrite HD in Hrun. cbn in Hrun.
  rewrite lookup_insert_ne in Hrun by done. rewrite HD in Hrun.
  destruct (df_getitem D f) as [column|e] eqn:Hget.
  2: { inversion Hrun; subst; clear Hrun. eexists; split;
       [apply it_refused; unfold perturbed; rewrite Hget; reflexivity|].
       cbn. split; [done|by apply insert_subseteq]. }
  destruct (random_choice column n (rng w)) as [[samples|e] r'] eqn:Hrc;
    cbn in Hrun; try rewrite Hrc in Hrun.
  2: { inversion Hrun; subst; clear Hrun. eexists; split;
         [apply it_refused; unfold perturbed; rewrite Hget, Hrc; reflexivity|].
       cbn. split; [done|by apply insert_subseteq]. }
  cbn in Hrun. rewrite lookup_insert_eq in Hrun. cbn in Hrun.
  rewrite Hget in Hrun.
  assert (Hperturbed : perturbed D f n (rng w) =
      match series_sub column samples with
      | Raise e => (Raise e, r')
      | Ok _ =>
          match df_setitem D f samples with
          | Raise e => (Raise e, r')
          | Ok X => (Ok (samples, X), r')
          end
      end) by (unfold perturbed; rewrite Hget, Hrc; reflexivity).
  destruct (series_sub column samples) as [?|e] eqn:Hsub.
  2: { inversion Hrun; subst; clear Hrun. eexists; split; [by apply it_refused|].
       cbn. split; [done|by apply insert_subseteq]. }
  cbn in Hrun. rewrite lookup_insert_eq in Hrun. cbn in Hrun.
  destruct (df_setitem D f samples) as [X|e] eqn:Hset.
  2: { inversion Hrun; subst; clear Hrun. eexists; split; [by apply it_refused|].
       cbn. split; [done|by apply insert_subseteq]. }
  cbn in Hrun. rewrite lookup_insert_eq in Hrun. cbn in Hrun.
  rewrite insert_insert_eq in Hrun.
  destruct (predict (model_state w) X) as [[P|e] ms'] eqn:Hp.
  2: { inversion Hrun; subst; clear Hrun. eexists; split;
         [by eapply it_predict_raises|].
       cbn. split; [by rewrite <- app_assoc|by apply insert_subseteq]. }
  destruct (nd_sub P P0) as [changes|e] eqn:Hnd.
  2: { inversion Hrun; subst; clear Hrun. eexists; split;
         [by eapply it_shapes_differ|].
       cbn. split; [by rewrite <- app_assoc|by apply insert_subseteq]. }
  inversion Hrun; subst; clear Hrun. eexists; split; [by eapply it_scored|].
  cbn. split; [by rewrite <- app_assoc|by apply insert_subseteq].
Qed.

Lemma for_each_sound P0 n fids :
  forall imp (w w' : world) res D,
    heap w !! data data_set = Some D ->
    for_each fids (perturb_feature predict data_set P0 n) imp w = (res, w') ->
    exists evs,
      loop predict P0 n D fids imp (rng w) (model_state w) evs res (rng w') (model_state w')
      /\ trace w' = trace w ++ evs
      /\ heap w ⊆ heap w'.
Proof.
  induction fids as [|f fs IH]; intros imp w w' res D HD Hrun.
  - inversion Hrun; subst. exists []. split; [constructor|].
    split; [by rewrite app_nil_r|done].
  - cbn in Hrun. unfold bind in Hrun.
    destruct (perturb_feature predict data_set P0 n imp f w) as [[imp'|e] w1] eqn:Hstep.
    + destruct (perturb_feature_sound _ _ _ _ _ _ _ _ HD Hstep)
        as (evs & Hit & Htr & Hsub).
      assert (HD1 : heap w1 !! data data_set = Some D)
        by (eapply lookup_weaken; eauto).
      destruct (IH _ _ _ _ _ HD1 Hrun) as (evs' & Hloop & Htr' & Hsub').
      exists (evs ++ evs'). split; [by eapply loop_next|].
      split; [by rewrite Htr', Htr, app_assoc|by etrans].
    + inversion Hrun; subst; clear Hrun.
      destruct (perturb_feature_sound _ _ _ _ _ _ _ _ HD Hstep)
        as (evs & Hit & Htr & Hsub).
      exists evs. split; [by apply loop_raises|done].
Qed.

(** Lines 55 to 70 do what [raw_run] says and leave every frame that
    existed as it was. *)
Lemma raw_importances_sound (w w' : world) res D :
  heap w !! data data_set = Some D ->
  raw_importances predict data_set w = (res, w') ->
  exists evs,
    raw_run predict data_set D (rng w) (model_state w) evs res (rng w') (model_state w')
    /\ trace w' = trace w ++ evs
    /\ heap w ⊆ heap w'.
Proof.
  intros HD Hrun.
  unfold raw_importances, call_predict, deref, bind in Hrun.
  rewrite HD in Hrun.
  destruct (predict (model_state w) D) as [[P0|e] ms'] eqn:Hp.
  - match type of Hrun with for_each _ _ _ ?w1 = _ =>
      assert (HD1 : heap w1 !! data data_set = Some D) by exact HD;
      destruct (for_each_sound _ _ _ _ _ _ _ _ HD1 Hrun)
        as (evs & Hloop & Htr & Hsub)
    end.
    cbn in *. exists (EvPredict D (Ok P0) :: evs).
    split; [by eapply raw_baseline|].
    split; [by rewrite Htr, <- app_assoc|done].
  - inversion Hrun; subst; clear Hrun. cbn.
    exists [EvPredict D (Raise e)]. split; [by apply raw_baseline_raises|done].
Qed.

Lemma feature_importance_unfold (w : world) :
  feature_importance predict kind data_set w =
    match raw_importances predict data_set w with
    | (Ok imp, w') => (Ok (normalize kind imp), w')
    | (Raise e, w') => (Raise e, w')
    end.
Proof. reflexivity. Qed.

(* ------------------------------------------------------------------ *)
(** ** Facts about the sampler and the perturbed table *)

Lemma random_draws_length column n :
  forall r, length (random_draws column n r).1 = n.
Proof.
  induction n as [|n IH]; intros r; [done|].
  cbn. specialize (IH (tl r)).
  destruct (random_draws column n (tl r)) as [xs r']. cbn in *. by rewrite IH.
Qed.

Lemma random_choice_length column n r samples r' :
  random_choice column n r = (Ok samples, r') -> length samples = n.
Proof.
  unfold random_choice. intros H.
  pose proof (random_draws_length column n r) as Hlen.
  destruct (random_draws column n r) as [xs r1].
  destruct column; [destruct n|]; inversion H as [[Hs Hr]];
    rewrite <- Hs; exact Hlen.
Qed.

(** A table reaches the model only when the column exists and the
    number of samples is the number of rows of the frame; it is then the
    data set with that one column overwritten. *)
Lemma perturbed_Ok D f n r samples X r' :
  perturbed D f n r = (Ok (samples, X), r') ->
  exists column,
    df_getitem D f = Ok column
    /\ random_choice column n r = (Ok samples, r')
    /\ length samples = n
    /\ length column = n
    /\ index_len D = n
    /\ X = MkDataFrame (index_len D) (alist_set (columns D) f samples).
Proof.
  unfold perturbed. intros H.
  destruct (df_getitem D f) as [column|] eqn:Hget; [|done].
  destruct (random_choice column n r) as [[s|] r1] eqn:Hrc; [|done].
  pose proof (random_choice_length _ _ _ _ _ Hrc) as Hlen.
  unfold series_sub, df_setitem in H.
  destruct (Nat.eqb_spec (length column) (length s)) as [Hc|]; [|done].
  destruct (Nat.eqb_spec (length s) (index_len D)) as [Hi|]; [|done].
  inversion H; subst. exists column. repeat split; congruence.
Qed.

Lemma predict_calls_app (evs evs' : list event) :
  predict_calls (evs ++ evs') = predict_calls evs ++ predict_calls evs'.
Proof. apply omap_app. Qed.

Lemma sample_calls_app (evs evs' : list event) :
  sample_calls (evs ++ evs') = sample_calls evs ++ sample_calls evs'.
Proof. apply omap_app. Qed.

(** A completed iteration took the last branch. *)
Lemma iteration_Ok_inv P0 n D imp f r ms evs imp' r' ms' :
  iteration predict P0 n D imp f r ms evs (Ok imp') r' ms' ->
  exists samples X P changes,
    perturbed D f n r = (Ok (samples, X), r')
    /\ predict ms X = (Ok P, ms')
    /\ nd_sub P P0 = Ok changes
    /\ evs = [EvSample f n "random-choice"; EvPredict X (Ok P)]
    /\ imp' = alist_set imp f (importance_of changes).
Proof. inversion 1; subst. by exists samples, X, P, changes. Qed.

Lemma loop_calls P0 n D fids imp r ms evs res r' ms' :
  loop predict P0 n D fids imp r ms evs res r' ms' ->
  forall raw, res = Ok raw ->
    sample_calls evs = map (fun f => (f, n, "random-choice")) fids
    /\ Forall2 (working_copy_of D n) fids (predict_calls evs).
Proof.
  induction 1 as [imp r ms|f fs imp r ms evs e r' ms' Hit
                  |f fs imp r ms evs imp' r' ms' evs' res r'' ms'' Hit Hloop IH];
    intros raw Hres.
  - split; [done|constructor].
  - done.
  - destruct (iteration_Ok_inv _ _ _ _ _ _ _ _ _ _ _ Hit)
      as (samples & X & P & changes & Hpert & Hp & Hnd & -> & ->).
    destruct (perturbed_Ok _ _ _ _ _ _ _ Hpert)
      as (column & Hget & Hrc & Hlen & Hcol & Hidx & HX).
    destruct (IH _ Hres) as [IHs IHp].
    rewrite sample_calls_app, predict_calls_app. cbn. split; [by rewrite IHs|].
    constructor; [|done].
    exists samples. split; [done|]. cbn. unfold df_setitem.
    rewrite Hlen, Hidx, Nat.eqb_refl. by rewrite HX, Hidx.
Qed.

(* ------------------------------------------------------------------ *)
(** ** Calls to the model *)


Lemma loop_stops_at_failure P0 n D fids imp r ms evs res r' ms' :
  loop predict P0 n D fids imp r ms evs res r' ms' ->
  forall pre X e post,
    evs = pre ++ EvPredict X (Raise e) :: post ->
    post = [] /\ res = Raise e.
Proof.
  induction 1 as [imp r ms|f fs imp r ms evs e r' ms' Hit
                  |f fs imp r ms evs imp' r' ms' evs' res r'' ms'' Hit Hloop IH];
    intros pre X0 e0 post Heq.
  - by destruct pre.
  - revert pre X0 e0 post Heq. inversion Hit; subst; intros pre X0 e0 post Heq;
      destruct pre as [|? [|? [|? ?]]]; cbn in Heq; by simplify_eq.
  - destruct (iteration_Ok_inv _ _ _ _ _ _ _ _ _ _ _ Hit)
      as (samples & X & P & changes & _ & _ & _ & -> & _).
    destruct pre as [|? [|? pre]]; cbn in Heq; simplify_eq.
    by eapply IH.
Qed.

(** C8. An exception raised by [modelinstance.predict] during a call of
    [feature_importance] is the exception the call raises, and the
    failing invocation is the last thing the call does: nothing is
    caught, replaced or tried again. *)
Theorem model_failure_propagates (w w' : world) res D :
  heap w !! data data_set = Some D ->
  feature_importance predict kind data_set w = (res, w') ->
  exists evs,
    trace w' = trace w ++ evs
    /\ forall pre X e post,
         evs = pre ++ EvPredict X (Raise e) :: post ->
         post = [] /\ res = Raise e.
Proof.
  intros HD Hrun. rewrite feature_importance_unfold in Hrun.
  destruct (raw_importances predict data_set w) as [r w1] eqn:Hraw.
  destruct (raw_importances_sound _ _ _ _ HD Hraw) as (evs & Hrr & Htr & _).
  assert (w1 = w') as -> by (destruct r; by inversion Hrun).
  assert (Hres : forall e, r = Raise e -> res = Raise e)
    by (intros e ->; by inversion Hrun).
  clear Hrun. exists evs. split; [done|].
  inversion Hrr as [e1 ms' Hp|P0 ms' evs' ? ? ? Hp Hloop]; subst;
    intros pre X e post Heq.
  - destruct pre as [|? [|? ?]]; cbn in Heq; simplify_eq. eauto.
  - destruct pre as [|? pre]; cbn in Heq; simplify_eq.
    destruct (loop_stops_at_failure _ _ _ _ _ _ _ _ _ _ _ Hloop _ _ _ _ eq_refl)
      as [-> ->].
    eauto.
Qed.

(* ------------------------------------------------------------------ *)
(** ** The data set is left alone *)

(** C6. [feature_importance] changes no frame that exists when it is
    called, whether it returns or raises: in particular the frame the
    data set owns is the same afterwards. Item assignment only ever
    reaches the copy made in the same pass of the loop. *)
Theorem dataset_never_modified (w w' : world) res l X :
  heap w !! l = Some X ->
  feature_importance predict kind data_set w = (res, w') ->
  heap w' !! l = Some X.
Proof.
  intros Hl Hrun. rewrite feature_importance_unfold in Hrun.
  destruct (raw_importances predict data_set w) as [r w1] eqn:Hraw.
  assert (w1 = w') as -> by (destruct r; by inversion Hrun).
  destruct (heap w !! data data_set) as [D|] eqn:HD.
  - destruct (raw_importances_sound _ _ _ _ HD Hraw) as (evs & _ & _ & Hsub).
    by eapply lookup_weaken.
  - unfold raw_importances, call_predict, deref, bind in Hraw.
    rewrite HD in Hraw. by inversion Hraw; subst.
Qed.

(* ------------------------------------------------------------------ *)
(** ** The keys of the result *)

Lemma alist_set_keys {V : Type} (d : list (string * V)) k v :
  forall f, f ∈ map fst (alist_set d k v) <-> f = k \/ f ∈ map fst d.
Proof.
  induction d as [|[k' v'] d IH]; intros f; cbn.
  - rewrite list_elem_of_singleton. split; [auto|].
    intros [?|H]; [done|by apply not_elem_of_nil in H].
  - destruct (String.eqb_spec k' k) as [->|Hne]; cbn.
    + rewrite elem_of_cons. tauto.
    + rewrite !elem_of_cons, IH. tauto.
Qed.

Lemma alist_set_NoDup {V : Type} (d : list (string * V)) k v :
  NoDup (map fst d) -> NoDup (map fst (alist_set d k v)).
Proof.
  induction d as [|[k' v'] d IH]; cbn; intros Hnd.
  - apply NoDup_singleton.
  - apply NoDup_cons in Hnd as [Hk' Hnd].
    destruct (String.eqb_spec k' k) as [->|Hne]; cbn.
    + by apply NoDup_cons.
    + apply NoDup_cons. split; [|by apply IH].
      rewrite alist_set_keys. intros [?|?]; congruence.
Qed.

Lemma loop_keys P0 n D fids imp r ms evs res r' ms' :
  loop predict P0 n D fids imp r ms evs res r' ms' ->
  forall raw, res = Ok raw ->
    (NoDup (map fst imp) -> NoDup (map fst raw))
    /\ forall f, f ∈ map fst raw <-> f ∈ map fst imp \/ f ∈ fids.
Proof.
  induction 1 as [imp r ms|f fs imp r ms evs e r' ms' Hit
                  |f fs imp r ms evs imp' r' ms' evs' res r'' ms'' Hit Hloop IH];
    intros raw Hres.
  - inversion Hres; subst. split; [done|]. intros f. split; [auto|].
    intros [?|H]; [done|by apply not_elem_of_nil in H].
  - done.
  - destruct (iteration_Ok_inv _ _ _ _ _ _ _ _ _ _ _ Hit)
      as (samples & X & P & changes & _ & _ & _ & _ & ->).
    destruct (IH _ Hres) as [IHnd IHk]. split.
    + intros Hnd. by apply IHnd, alist_set_NoDup.
    + intros g. rewrite IHk, alist_set_keys, elem_of_cons. tauto.
Qed.

Lemma filter_nan_split (s : list (string * F)) :
  List.filter (fun kv => negb (fisnan (snd kv))) s
    ++ List.filter (fun kv => fisnan (snd kv)) s ≡ₚ s.
Proof.
  induction s as [|kv s IH]; [done|].
  cbn. destruct (fisnan kv.2); cbn.
  - by rewrite <- Permutation_middle, IH.
  - by rewrite IH.
Qed.

Lemma sort_values_perm (s : Series F) :
  (forall l, kind l ≡ₚ l) -> sort_values kind s ≡ₚ s.
Proof.
  intros Hkind. unfold sort_values. rewrite Hkind. apply filter_nan_split.
Qed.

Lemma Series_div_keys (s : Series F) d : map fst (Series_div s d) = map fst s.
Proof. unfold Series_div. rewrite map_map. done. Qed.

Lemma normalize_keys imp :
  (forall l, kind l ≡ₚ l) -> map fst (normalize kind imp) ≡ₚ map fst imp.
Proof.
  intros Hkind. unfold normalize, Series_of_dict.
  rewrite Series_div_keys. by rewrite sort_values_perm.
Qed.

(** C5. The index of the [Series] that [feature_importance] returns
    holds every feature identifier of the data set, each once, and
    nothing else. *)
Theorem result_keys_are_feature_ids (w w' : world) res :
  (forall l, kind l ≡ₚ l) ->
  feature_importance predict kind data_set w = (Ok res, w') ->
  NoDup (map fst res)
  /\ forall f, f ∈ map fst res <-> f ∈ feature_ids data_set.
Proof.
  intros Hkind Hrun. rewrite feature_importance_unfold in Hrun.
  destruct (raw_importances predict data_set w) as [[raw|e] w1] eqn:Hraw; [|done].
  inversion Hrun; subst; clear Hrun.
  destruct (heap w !! data data_set) as [D|] eqn:HD.
  2: { unfold raw_importances, call_predict, deref, bind in Hraw.
       by rewrite HD in Hraw. }
  destruct (raw_importances_sound _ _ _ _ HD Hraw) as (evs & Hrr & _ & _).
  inversion Hrr as [|P0 ms' evs' ? ? ? Hp Hloop]; subst.
  destruct (loop_keys _ _ _ _ _ _ _ _ _ _ _ Hloop raw eq_refl) as [Hnd Hk].
  pose proof (normalize_keys raw Hkind) as Hperm. split.
  - rewrite Hperm. apply Hnd. constructor.
  - intros f. rewrite Hperm, Hk. split; [|auto].
    intros [H|?]; [by apply not_elem_of_nil in H|done].
Qed.

(* ------------------------------------------------------------------ *)
(** ** The reduction of the prediction delta *)

Lemma nth_map_seq {A : Type} (g : nat -> A) k j d :
  j < k -> nth j (map g (seq 0 k)) d = g j.
Proof.
  intros Hj.
  rewrite (nth_indep _ d (g 0)) by (rewrite length_map, length_seq; lia).
  rewrite (map_nth g). by rewrite seq_nth.
Qed.

Lemma list_as_nth (l : list F) k :
  length l = k -> l = map (fun j => nth j l fzero) (seq 0 k).
Proof.
  intros <-. apply nth_ext with (d := fzero) (d' := fzero).
  - by rewrite length_map, length_seq.
  - intros j Hj. by rewrite nth_map_seq.
Qed.

Lemma nth_zip_with (f : F -> F -> F) (a b : list F) j :
  j < length a -> j < length b ->
  nth j (zip_with f a b) fzero = f (nth j a fzero) (nth j b fzero).
Proof.
  revert b j. induction a as [|x a IH]; intros [|y b] [|j]; cbn; try lia; [done|].
  intros. apply IH; lia.
Qed.

Lemma length_zip_with_same (f : F -> F -> F) (a b : list F) k :
  length a = k -> length b = k -> length (zip_with f a b) = k.
Proof. intros. rewrite length_zip_with. lia. Qed.

(** Adding up the rows entry by entry adds up every column. *)
Lemma sum_rows_columnwise (rs : list (list F)) k :
  Forall (fun r => length r = k) rs ->
  forall acc, length acc = k ->
    fold_left (zip_with fadd) rs acc =
      map (fun j => fold_left fadd (map (fun r => nth j r fzero) rs) (nth j acc fzero))
        (seq 0 k).
Proof.
  induction 1 as [|r rs Hr Hrs IH]; intros acc Hacc; cbn.
  - by apply list_as_nth.
  - rewrite IH by (by apply length_zip_with_same).
    apply map_ext_in. intros j Hj. apply in_seq in Hj.
    rewrite nth_zip_with by lia. done.
Qed.

Lemma nth_replicate_zero j k : nth j (replicate k fzero) fzero = fzero.
Proof.
  revert j. induction k as [|k IH]; intros [|j]; cbn; auto.
Qed.

Lemma np_sum_axis0_columnwise (a : ndarray F) :
  well_shaped a ->
  np_sum_axis0 a = map (fun j => np_sum (column a j)) (seq 0 (ncols a)).
Proof.
  intros [_ Hrows]. unfold np_sum_axis0.
  rewrite (sum_rows_columnwise _ _ Hrows) by apply length_replicate.
  apply map_ext. intros j. by rewrite nth_replicate_zero.
Qed.

Lemma column_length (a : ndarray F) j :
  well_shaped a -> length (column a j) = nrows a.
Proof. intros [Hn _]. unfold column. by rewrite length_map. Qed.

(** numpy's array computation of [np.std(a, axis=0)] gives, for every
    column, the standard deviation of that column. *)
Lemma np_std_axis0_columnwise (a : ndarray F) :
  well_shaped a ->
  np_std_axis0 a = map (fun j => stddev (column a j)) (seq 0 (ncols a)).
Proof.
  intros Hws. pose proof Hws as [Hn Hrows]. unfold np_std_axis0.
  rewrite (np_sum_axis0_columnwise a Hws).
  set (arrmean := map (fun s => fdiv s (fof_nat (nrows a))) _).
  assert (Hlen : length arrmean = ncols a)
    by (unfold arrmean; by rewrite !length_map, length_seq).
  assert (Hmean : forall j, j < ncols a ->
            nth j arrmean fzero = fdiv (np_sum (column a j)) (fof_nat (nrows a))).
  { intros j Hj. unfold arrmean. rewrite map_map. by rewrite nth_map_seq. }
  unfold np_sum_axis0. cbn [rows ncols nrows].
  rewrite (sum_rows_columnwise _ (ncols a)); [|clear Hmean|apply length_replicate].
  2: { rewrite !Forall_map. eapply Forall_impl; [exact Hrows|].
       intros r Hr. cbn. rewrite length_map. by apply length_zip_with_same. }
  rewrite map_map. apply map_ext_in. intros j Hj. apply in_seq in Hj.
  rewrite nth_replicate_zero. unfold stddev. rewrite (column_length a j Hws).
  do 2 f_equal. unfold np_sum. f_equal.
  unfold column. rewrite !map_map.
  apply map_ext_in. intros r Hr.
  rewrite List.Forall_forall in Hrows. specialize (Hrows r Hr).
  rewrite (nth_indep _ _ ((fun d => fmul d d) fzero))
    by (rewrite length_map; apply Nat.lt_le_trans with (ncols a);
        [lia|by rewrite (length_zip_with_same _ _ _ _ Hrows Hlen)]).
  rewrite (map_nth (fun d => fmul d d)), nth_zip_with by lia.
  rewrite Hmean by lia. done.
Qed.

(** The score computed on line 69 is the reduction of the
    specification. *)
Lemma importance_of_spec (delta : ndarray F) :
  well_shaped delta -> importance_of delta = spec_importance delta.
Proof.
  intros Hws. unfold importance_of, spec_importance, np_mean.
  rewrite (np_std_axis0_columnwise delta Hws).
  by rewrite length_map, length_seq.
Qed.

Lemma broadcast_dim_Some x y n :
  broadcast_dim x y = Some n -> (x = n \/ x = 1) /\ (y = n \/ y = 1).
Proof.
  unfold broadcast_dim.
  destruct (Nat.eqb_spec x y); [intros [= <-]; lia|].
  destruct (Nat.eqb_spec x 1); [intros [= <-]; lia|].
  destruct (Nat.eqb_spec y 1); [intros [= <-]; lia|done].
Qed.

Lemma broadcast_to_shape (a : ndarray F) n k :
  well_shaped a -> nrows a = n \/ nrows a = 1 -> ncols a = k \/ ncols a = 1 ->
  length (broadcast_to n k a) = n
  /\ Forall (fun r => length r = k) (broadcast_to n k a).
Proof.
  intros [Hn Hrows] Hr Hc. unfold broadcast_to.
  set (stretch := fun r : list F => if Nat.eqb (ncols a) k then r else replicate k (hd fzero r)).
  assert (Hst : Forall (fun r => length r = k) (map stretch (rows a))).
  { rewrite Forall_map. eapply Forall_impl; [exact Hrows|].
    intros r Hlen. unfold stretch. cbn.
    destruct (Nat.eqb_spec (ncols a) k); [congruence|apply length_replicate]. }
  destruct (Nat.eqb_spec (nrows a) n) as [Heq|Hne].
  - split; [by rewrite length_map, Hn|done].
  - split; [apply length_replicate|].
    apply Forall_replicate.
    destruct (map stretch (rows a)) as [|r0 rs] eqn:Hmap.
    + apply (f_equal length) in Hmap. rewrite length_map in Hmap. cbn in Hmap. lia.
    + cbn. by apply Forall_cons in Hst as [? _].
Qed.

Lemma nd_sub_well_shaped (a b c : ndarray F) :
  well_shaped a -> well_shaped b -> nd_sub a b = Ok c -> well_shaped c.
Proof.
  intros Ha Hb. unfold nd_sub.
  destruct (broadcast_dim (nrows a) (nrows b)) as [n|] eqn:Hn; [|done].
  destruct (broadcast_dim (ncols a) (ncols b)) as [k|] eqn:Hk; [|done].
  intros [= <-].
  apply broadcast_dim_Some in Hn as [Hna Hnb], Hk as [Hka Hkb].
  destruct (broadcast_to_shape a n k Ha Hna Hka) as [Hla Hfa].
  destruct (broadcast_to_shape b n k Hb Hnb Hkb) as [Hlb Hfb].
  split; cbn.
  - rewrite length_zip_with. lia.
  - clear Hla Hlb. revert Hfb. generalize (broadcast_to n k b).
    induction Hfa as [|ra rsa Hra _ IH]; intros [|rb rsb] Hfb; cbn;
      try constructor.
    + inversion Hfb as [|? ? Hrb Hrest]; subst. rewrite length_zip_with. lia.
    + apply IH. by inversion Hfb.
Qed.

Lemma assign_all_snoc {V : Type} (d : list (string * V)) items k v :
  assign_all d (items ++ [(k, v)]) = alist_set (assign_all d items) k v.
Proof. unfold assign_all. by rewrite fold_left_app. Qed.

Lemma loop_scores P0 n D fids imp r ms evs res r' ms' :
  (forall ms X P ms', predict ms X = (Ok P, ms') -> well_shaped P) ->
  well_shaped P0 ->
  loop predict P0 n D fids imp r ms evs res r' ms' ->
  forall raw, res = Ok raw ->
    exists scores,
      Forall2 (scored_by P0) (predict_calls evs) scores
      /\ raw = assign_all imp (zip fids scores).
Proof.
  intros Hmodel HP0.
  induction 1 as [imp r ms|f fs imp r ms evs e r' ms' Hit
                  |f fs imp r ms evs imp' r' ms' evs' res r'' ms'' Hit Hloop IH];
    intros raw Hres.
  - inversion Hres; subst. exists []. split; [constructor|done].
  - done.
  - destruct (iteration_Ok_inv _ _ _ _ _ _ _ _ _ _ _ Hit)
      as (samples & X & P & changes & _ & Hp & Hnd & -> & ->).
    destruct (IH _ Hres) as (scores & Hsc & ->).
    exists (importance_of changes :: scores). split; [|done].
    rewrite predict_calls_app. cbn. constructor; [|done].
    exists P, changes. split; [done|]. split; [done|].
    apply importance_of_spec.
    apply (nd_sub_well_shaped P P0 changes); [by eapply Hmodel|done|done].
Qed.


(* ------------------------------------------------------------------ *)
(** ** Rendering *)

(** C9. When the import of the plotting library raises [ImportError],
    [plot_feature_importance] raises [MatplotlibUnavailableError]; when
    it raises [RuntimeError], [plot_feature_importance] raises
    [MatplotlibDisplayError]. The two are different exceptions, both
    reach the caller, and both are raised before anything else is done:
    the world is untouched, so [feature_importance], which imports
    nothing, returns afterwards what it would have returned. *)
Theorem rendering_failures_are_typed (w : world) (ax : option loc) (msg : string) :
  let unavailable :=
    plot_feature_importance predict kind COLORS data_set
      (ImportRaises (Exn "ImportError" msg)) ax w in
  let no_display :=
    plot_feature_importance predict kind COLORS data_set
      (ImportRaises (Exn "RuntimeError" msg)) ax w in
  unavailable =
    (Raise (MatplotlibUnavailableError
              "Matplotlib is required but unavailable on your system."), w)
  /\ no_display =
       (Raise (MatplotlibDisplayError "Matplotlib unable to open display"), w)
  /\ fst unavailable <> fst no_display
  /\ feature_importance predict kind data_set (snd unavailable) =
       feature_importance predict kind data_set w
  /\ feature_importance predict kind data_set (snd no_display) =
       feature_importance predict kind data_set w.
Proof. cbn. repeat split; done. Qed.

(* ------------------------------------------------------------------ *)
(** ** Runs that cannot fail *)

(** No exception is raised before the model is called when the column
    is there and the number of samples is the number of rows. *)
Lemma perturbed_total D f n r column :
  df_getitem D f = Ok column ->
  length column = n ->
  index_len D = n ->
  exists samples X r', perturbed D f n r = (Ok (samples, X), r').
Proof.
  intros Hget Hcol Hidx. unfold perturbed. rewrite Hget.
  destruct (random_choice column n r) as [[samples|e] r'] eqn:Hrc.
  - pose proof (random_choice_length _ _ _ _ _ Hrc) as Hlen.
    unfold series_sub, df_setitem.
    rewrite Hcol, Hlen, Hidx, !Nat.eqb_refl. eauto.
  - unfold random_choice in Hrc.
    destruct (random_draws column n r).
    destruct column; [destruct n|]; done.
Qed.

Lemma alist_set_Forall {V : Type} (P : string * V -> Prop) d k v :
  (forall k', P (k', v)) -> Forall P d -> Forall P (alist_set d k v).
Proof.
  intros Hv. induction 1 as [|[k' v'] d Hk Hd IH]; cbn.
  - by constructor.
  - destruct (String.eqb k' k); by constructor.
Qed.

Lemma assign_all_Forall {V : Type} (P : string * V -> Prop) d (v : V) fids :
  (forall k, P (k, v)) -> Forall P d ->
  Forall P (assign_all d (map (fun f => (f, v)) fids)).
Proof.
  intros Hv. revert d. unfold assign_all.
  induction fids as [|f fids IH]; intros d Hd; cbn; [done|].
  apply IH. by apply alist_set_Forall.
Qed.

(** A model that always answers, and whose answers all lead to the same
    score [v], gives every feature the score [v]. *)
Lemma loop_uniform (Q : ndarray F -> Prop) (v : F) P0 n D :
  index_len D = n ->
  (forall ms X, index_len X = index_len D ->
     exists P ms', predict ms X = (Ok P, ms') /\ Q P) ->
  (forall P, Q P -> exists changes, nd_sub P P0 = Ok changes /\ importance_of changes = v) ->
  forall fids imp r ms evs res r' ms',
    loop predict P0 n D fids imp r ms evs res r' ms' ->
    Forall (fun f => exists column, df_getitem D f = Ok column /\ length column = n) fids ->
    res = Ok (assign_all imp (map (fun f => (f, v)) fids)).
Proof.
  intros Hidx Hmodel Hscore fids imp r ms evs res r' ms'.
  assert (Hstep : forall imp f r ms evs res r' ms',
    iteration predict P0 n D imp f r ms evs res r' ms' ->
    (exists column, df_getitem D f = Ok column /\ length column = n) ->
    res = Ok (alist_set imp f v)).
  { clear - Hidx Hmodel Hscore. intros imp f r ms evs res r' ms' Hit (column & Hget & Hcol).
    destruct (perturbed_total D f n r column Hget Hcol Hidx)
      as (samples0 & X0 & r0 & Hpert).
    destruct (perturbed_Ok _ _ _ _ _ _ _ Hpert) as (? & _ & _ & _ & _ & _ & HX0).
    assert (HiX : index_len X0 = index_len D) by (by rewrite HX0).
    destruct (Hmodel ms X0 HiX) as (P1 & ms1 & Hp1 & HQ).
    destruct (Hscore P1 HQ) as (changes1 & Hnd1 & Hv).
    inversion Hit; subst; congruence. }
  induction 1 as [imp r ms|f fs imp r ms evs e r' ms' Hit
                  |f fs imp r ms evs imp' r' ms' evs' res r'' ms'' Hit Hloop IH];
    intros Hcols.
  - done.
  - apply Forall_cons in Hcols as [Hf _]. by specialize (Hstep _ _ _ _ _ _ _ _ Hit Hf).
  - apply Forall_cons in Hcols as [Hf Hfs].
    specialize (Hstep _ _ _ _ _ _ _ _ Hit Hf). simplify_eq.
    by rewrite (IH Hfs).
Qed.

(** The same for the call as a whole: it returns the normalized
    dictionary in which every feature has the score [v]. *)
Lemma feature_importance_uniform (Q : ndarray F -> Prop) (v : F) (w : world) D :
  heap w !! data data_set = Some D ->
  (forall ms X, index_len X = index_len D ->
     exists P ms', predict ms X = (Ok P, ms') /\ Q P /\ nrows P = index_len D) ->
  (forall P P0, Q P -> Q P0 ->
     exists changes, nd_sub P P0 = Ok changes /\ importance_of changes = v) ->
  Forall (fun f => exists column,
            df_getitem D f = Ok column /\ length column = index_len D)
    (feature_ids data_set) ->
  exists w',
    feature_importance predict kind data_set w =
      (Ok (normalize kind
             (assign_all [] (map (fun f => (f, v)) (feature_ids data_set)))), w').
Proof.
  intros HD Hmodel Hscore Hcols. rewrite feature_importance_unfold.
  destruct (raw_importances predict data_set w) as [res w'] eqn:Hraw.
  exists w'.
  destruct (raw_importances_sound _ _ _ _ HD Hraw) as (evs & Hrr & _ & _).
  inversion Hrr as [e ms' Hp|P0 ms' evs' ? ? ? Hp Hloop]; subst.
  - destruct (Hmodel (model_state w) D eq_refl) as (P & ms1 & Hp1 & _). congruence.
  - destruct (Hmodel (model_state w) D eq_refl) as (P & ms1 & Hp1 & HQ0 & Hn).
    assert (P = P0) as -> by congruence.
    rewrite (loop_uniform (fun P => Q P /\ nrows P = index_len D) v P0 (nrows P0) D
               (eq_sym Hn) Hmodel
               (fun P1 HQ1 => Hscore P1 P0 (proj1 HQ1) HQ0)
               _ _ _ _ _ _ _ _ Hloop); [done|].
    by rewrite Hn.
Qed.

(* ------------------------------------------------------------------ *)
(** ** Normalization *)

Lemma insert_sorted_perm (kv : string * F) (l : list (string * F)) :
  insert_sorted kv l ≡ₚ kv :: l.
Proof.
  induction l as [|kv' l IH]; cbn; [done|].
  destruct (fltb kv.2 kv'.2); [done|].
  rewrite IH. apply perm_swap.
Qed.

(** Insertion sort rearranges, it neither drops nor adds an entry. *)
Lemma insertion_sort_perm (l : list (string * F)) : insertion_sort l ≡ₚ l.
Proof.
  unfold insertion_sort.
  assert (H : forall acc, fold_left (fun acc kv => insert_sorted kv acc) l acc ≡ₚ acc ++ l).
  { induction l as [|kv l IH]; intros acc; cbn.
    - by rewrite app_nil_r.
    - rewrite IH, insert_sorted_perm. cbn. apply Permutation_middle. }
  by rewrite H.
Qed.


Lemma insert_sorted_HdRel (x kv : string * F) (l : list (string * F)) :
  HdRel (fun x y => fltb (snd y) (snd x) = false) x l ->
  fltb (snd kv) (snd x) = false ->
  HdRel (fun x y => fltb (snd y) (snd x) = false) x (insert_sorted kv l).
Proof.
  intros Hhd Hkv. destruct l as [|kv' l]; cbn; [by constructor|].
  destruct (fltb kv.2 kv'.2); constructor; [done|by inversion Hhd].
Qed.

Lemma insert_sorted_ascending (kv : string * F) (l : list (string * F)) :
  (forall x y : F, fltb x y = true -> fltb y x = false) ->
  ascending l -> ascending (insert_sorted kv l).
Proof.
  intros Hasym. unfold ascending.
  induction 1 as [|kv' l Hl IH Hhd]; cbn; [by repeat constructor|].
  destruct (fltb kv.2 kv'.2) eqn:Hlt.
  - constructor; [by constructor|]. constructor. by apply Hasym.
  - constructor; [done|]. by apply insert_sorted_HdRel.
Qed.

(** Insertion sort sorts, whenever the comparison is a strict one. *)
Lemma insertion_sort_ascending (l : list (string * F)) :
  (forall x y : F, fltb x y = true -> fltb y x = false) ->
  ascending (insertion_sort l).
Proof.
  intros Hasym. unfold insertion_sort.
  assert (H : forall acc, ascending acc ->
            ascending (fold_left (fun acc kv => insert_sorted kv acc) l acc)).
  { induction l as [|kv l IH]; intros acc Hacc; cbn; [done|].
    by apply IH, insert_sorted_ascending. }
  apply H. constructor.
Qed.

End Facts.

(* ------------------------------------------------------------------ *)
(** ** Exact arithmetic *)

Section Exact.
Context {MS : Type}.
Variable predict : MS -> DataFrame R -> result (ndarray R) * MS.
Variable kind : sort_kind R.
Variable data_set : DataSet.

Local Open Scope R_scope.

Lemma fold_left_Rplus (l : list R) (a : R) :
  fold_left Rplus l a = a + fold_left Rplus l 0.
Proof.
  revert a. induction l as [|x l IH]; intros a; cbn; [lra|].
  rewrite (IH (a + x)), (IH (0 + x)). lra.
Qed.

Lemma np_sum_cons (x : R) (l : list R) : np_sum (x :: l) = x + np_sum l.
Proof.
  change (fold_left Rplus l (0 + x) = x + fold_left Rplus l 0).
  rewrite fold_left_Rplus. lra.
Qed.

Lemma np_sum_nil : np_sum (@nil R) = 0.
Proof. reflexivity. Qed.

Lemma np_sum_nonneg (l : list R) : Forall (fun x => 0 <= x) l -> 0 <= np_sum l.
Proof.
  induction 1 as [|x l Hx _ IH]; [rewrite np_sum_nil; lra|].
  rewrite np_sum_cons. lra.
Qed.

Lemma np_sum_positive (l : list R) :
  Forall (fun x => 0 <= x) l -> Exists (fun x => x <> 0) l -> 0 < np_sum l.
Proof.
  induction 1 as [|x l Hx Hl IH]; intros Hex; inversion Hex; subst;
    rewrite np_sum_cons.
  - pose proof (np_sum_nonneg l Hl). lra.
  - specialize (IH ltac:(assumption)). lra.
Qed.

Lemma np_sum_Permutation (l l' : list R) : l ≡ₚ l' -> np_sum l = np_sum l'.
Proof.
  induction 1; rewrite ?np_sum_cons; try lra; congruence.
Qed.

Lemma np_sum_div (l : list R) (d : R) :
  np_sum (map (fun x => x / d) l) = np_sum l / d.
Proof.
  induction l as [|x l IH]; cbn [map].
  - rewrite np_sum_nil. unfold Rdiv. lra.
  - rewrite !np_sum_cons, IH. unfold Rdiv. lra.
Qed.

(** No real number is a missing value: [sum()] skips nothing. *)
Lemma Series_sum_exact (s : Series R) : Series_sum s = total s.
Proof. reflexivity. Qed.

Lemma importance_of_nonneg (changes : ndarray R) : 0 <= importance_of changes.
Proof.
  unfold importance_of, np_mean, np_std_axis0. cbn [fdiv fof_nat real_Num].
  set (v := map _ _).
  assert (Hv : Forall (fun x => 0 <= x) v).
  { unfold v. apply Forall_map, Forall_true. intros s. cbn. apply sqrt_pos. }
  pose proof (np_sum_nonneg v Hv) as Hsum.
  pose proof (pos_INR (length v)) as Hn.
  destruct (Req_dec (INR (length v)) 0) as [->|Hne].
  - rewrite Rdiv_0_r. lra.
  - unfold Rdiv. apply Rmult_le_pos; [lra|].
    apply Rlt_le, Rinv_0_lt_compat. lra.
Qed.

Lemma loop_nonneg P0 n D fids imp r ms evs res r' ms' :
  loop predict P0 n D fids imp r ms evs res r' ms' ->
  forall raw, res = Ok raw ->
    Forall (fun kv => 0 <= snd kv) imp -> Forall (fun kv => 0 <= snd kv) raw.
Proof.
  induction 1 as [imp r ms|f fs imp r ms evs e r' ms' Hit
                  |f fs imp r ms evs imp' r' ms' evs' res r'' ms'' Hit Hloop IH];
    intros raw Hres Himp.
  - by inversion Hres; subst.
  - done.
  - destruct (iteration_Ok_inv _ _ _ _ _ _ _ _ _ _ _ _ Hit)
      as (samples & X & P & changes & _ & _ & _ & _ & ->).
    apply (IH _ Hres). apply alist_set_Forall; [|done].
    intros k'. apply importance_of_nonneg.
Qed.

(** The scores of a normalized series add up to one as soon as the raw
    scores are non-negative and not all zero. *)
Lemma normalize_total (raw : list (string * R)) :
  (forall l, kind l ≡ₚ l) ->
  Forall (fun kv => 0 <= snd kv) raw ->
  Exists (fun kv => snd kv <> 0) raw ->
  total (normalize kind raw) = 1.
Proof.
  intros Hkind Hpos Hex. unfold normalize, Series_of_dict.
  rewrite Series_sum_exact.
  set (s := sort_values kind raw).
  assert (Hperm : s ≡ₚ raw) by (by apply sort_values_perm).
  unfold total, Series_div. rewrite map_map. cbn [snd fdiv real_Num].
  rewrite <- (map_map snd (fun x => x / np_sum (map snd s))).
  rewrite np_sum_div. apply Rdiv_diag.
  rewrite (np_sum_Permutation (map snd s) (map snd raw))
    by (by apply Permutation_map).
  apply Rgt_not_eq, np_sum_positive.
  - by apply Forall_map.
  - apply List.Exists_exists in Hex as (kv & Hin & Hkv).
    apply List.Exists_exists. exists (snd kv). split; [by apply in_map|done].
Qed.


End Exact.

(* ------------------------------------------------------------------ *)
(** ** IEEE binary64 arithmetic *)

Section Binary64.
Context {MS : Type}.
Variable predict : MS -> DataFrame float -> result (ndarray float) * MS.
Variable kind : sort_kind float.
Variable data_set : DataSet.

Lemma map_replicate {A B : Type} (f : A -> B) (n : nat) (x : A) :
  map f (replicate n x) = replicate n (f x).
Proof. induction n as [|n IH]; cbn; [done|]. by rewrite IH. Qed.

Lemma SFcompare_asym (a b : spec_float) :
  SFcompare a b = Some Lt -> SFcompare b a = Some Gt.
Proof.
  destruct a as [sa|sa| |sa ma ea], b as [sb|sb| |sb mb eb]; cbn;
    try destruct sa; try destruct sb; cbn; try congruence.
  all: rewrite (Z.compare_antisym ea eb); destruct (ea ?= eb)%Z; cbn;
    try congruence.
  all: change (Pos.compare_cont Eq mb ma) with (Pos.compare mb ma);
    change (Pos.compare_cont Eq ma mb) with (Pos.compare ma mb);
    rewrite (Pos.compare_antisym ma mb); destruct (Pos.compare ma mb); cbn;
    congruence.
Qed.

(** The comparison of binary64 is a strict one. *)
Lemma fltb_asym (x y : float) : fltb x y = true -> fltb y x = false.
Proof.
  cbn [fltb float_Num]. rewrite !ltb_spec. unfold SFltb.
  destruct (SFcompare (Prim2SF x) (Prim2SF y)) as [[]|] eqn:H; try discriminate.
  intros _. by rewrite (SFcompare_asym _ _ H).
Qed.

(** *** The count of a non-empty axis

    The conversion of a positive integer to binary64 gives a positive
    number: rounding shifts fewer bits out than the integer has. *)

Local Open Scope Z_scope.

Lemma shr_1_positive (p : positive) r s :
  1 < Zpos (digits2_pos p) ->
  exists p' r' s',
    shr_1 (Build_shr_record (Zpos p) r s) = Build_shr_record (Zpos p') r' s'
    /\ Zpos (digits2_pos p') = Zpos (digits2_pos p) - 1.
Proof.
  destruct p as [p|p|]; cbn [digits2_pos shr_1]; intros H.
  - eexists _, _, _. split; [reflexivity|]. lia.
  - eexists _, _, _. split; [reflexivity|]. lia.
  - lia.
Qed.

Lemma iter_shr_1_positive (k : positive) :
  forall p r s,
    Zpos k < Zpos (digits2_pos p) ->
    exists p' r' s',
      SpecFloat.iter_pos shr_1 k (Build_shr_record (Zpos p) r s) = Build_shr_record (Zpos p') r' s'
      /\ Zpos (digits2_pos p') = Zpos (digits2_pos p) - Zpos k.
Proof.
  induction k as [k IH|k IH|]; intros p r s H; cbn [SpecFloat.iter_pos].
  - destruct (shr_1_positive p r s ltac:(lia)) as (p1 & r1 & s1 & -> & H1).
    destruct (IH p1 r1 s1 ltac:(lia)) as (p2 & r2 & s2 & -> & H2).
    destruct (IH p2 r2 s2 ltac:(lia)) as (p3 & r3 & s3 & -> & H3).
    eexists _, _, _. split; [reflexivity|]. lia.
  - destruct (IH p r s ltac:(lia)) as (p2 & r2 & s2 & -> & H2).
    destruct (IH p2 r2 s2 ltac:(lia)) as (p3 & r3 & s3 & -> & H3).
    eexists _, _, _. split; [reflexivity|]. lia.
  - apply shr_1_positive. lia.
Qed.

Lemma shr_fexp_positive (p : positive) (e : Z) (l : location) :
  emin <= e ->
  exists p' r' s' e',
    shr_fexp prec emax (Zpos p) e l = (Build_shr_record (Zpos p') r' s', e')
    /\ emin <= e'.
Proof.
  intros He. unfold shr_fexp, shr, fexp, Zdigits2.
  set (n := Z.max (Zpos (digits2_pos p) + e - prec) (emin) - e).
  assert (Hn : n < Zpos (digits2_pos p)) by (unfold n, SpecFloat.emin, prec, emax in *; lia).
  assert (Hrec : exists r s, shr_record_of_loc (Zpos p) l = Build_shr_record (Zpos p) r s).
  { destruct l as [|[]]; cbn; eauto. }
  destruct Hrec as (r & s & ->).
  fold n. destruct n as [|k|k] eqn:Hk.
  - eexists _, _, _, _. split; [reflexivity|lia].
  - destruct (iter_shr_1_positive k p r s Hn) as (p' & r' & s' & -> & _).
    eexists _, _, _, _. split; [reflexivity|lia].
  - eexists _, _, _, _. split; [reflexivity|lia].
Qed.

Lemma binary_round_aux_positive (sx : bool) (p : positive) (e : Z) (l : location) :
  emin <= e ->
  binary_round_aux prec emax sx (Zpos p) e l = S754_infinity sx
  \/ exists m e', binary_round_aux prec emax sx (Zpos p) e l = S754_finite sx m e'.
Proof.
  intros He. unfold binary_round_aux.
  destruct (shr_fexp_positive p e l He) as (p1 & r1 & s1 & e1 & -> & He1).
  assert (Hround : exists q, round_nearest_even (shr_m (Build_shr_record (Zpos p1) r1 s1))
                     (loc_of_shr_record (Build_shr_record (Zpos p1) r1 s1)) = Zpos q).
  { cbn. destruct r1, s1; cbn; try (destruct p1; cbn); eauto. }
  destruct Hround as (q & ->).
  destruct (shr_fexp_positive q e1 loc_Exact He1) as (p2 & r2 & s2 & e2 & -> & He2).
  cbn. destruct (e2 <=? _); [right; eexists _, _; reflexivity|left; reflexivity].
Qed.

Lemma binary_normalize_positive (p : positive) :
  binary_normalize prec emax (Zpos p) 0 false = S754_infinity false
  \/ exists m e, binary_normalize prec emax (Zpos p) 0 false = S754_finite false m e.
Proof.
  unfold binary_normalize, binary_round, shl_align, fexp.
  destruct (Z.max (Zpos (digits2_pos p) + 0 - prec) (emin) - 0) eqn:Hd;
    apply binary_round_aux_positive; unfold SpecFloat.emin, prec, emax in *; lia.
Qed.

(** Zero over the count of a non-empty axis is zero. *)
Lemma fdiv_zero_count (n : nat) :
  0 < Z.of_nat n < 2 ^ 63 -> fdiv 0%float (fof_nat n) = 0%float.
Proof.
  intros Hn. cbn [fdiv fof_nat float_Num fzero].
  apply Prim2SF_inj. rewrite div_spec, of_uint63_spec.
  rewrite Uint63.of_Z_spec, Z.mod_small by (change Uint63.wB with (2 ^ 63); lia).
  destruct (Z.of_nat n) as [|p|p] eqn:Hp; [lia| |lia].
  change (Prim2SF 0) with (S754_zero false).
  destruct (binary_normalize_positive p) as [->|(m & e & ->)]; reflexivity.
Qed.

Local Close Scope Z_scope.

(** A finite number minus itself is zero. *)
Lemma fsub_self_finite (x : float) :
  PrimFloat.is_finite x = true -> fsub x x = 0%float.
Proof.
  unfold PrimFloat.is_finite. intros Hfin.
  apply negb_true_iff, orb_false_iff in Hfin as [Hnan Hinf].
  assert (Hclass : (exists s, Prim2SF x = S754_zero s)
                   \/ (exists s m e, Prim2SF x = S754_finite s m e)).
  { unfold Prim2SF. rewrite Hnan. destruct (is_zero x); [eauto|].
    rewrite Hinf. destruct (Z.frexp x) as [r exp].
    destruct (shr_fexp _ _ _ _ _) as [shr e']. destruct (shr_m shr); eauto. }
  apply Prim2SF_inj. cbn [fsub float_Num]. rewrite sub_spec.
  change (Prim2SF 0) with (S754_zero false).
  destruct Hclass as [(s & ->)|(s & m & e & ->)].
  - by destruct s.
  - cbn. by rewrite Z.sub_diag.
Qed.

(** A missing value divided by anything is a missing value. *)
Lemma fdiv_nan_l (y : float) : fdiv nan y = nan.
Proof.
  apply Prim2SF_inj. cbn [fdiv float_Num]. rewrite div_spec.
  change (Prim2SF nan) with S754_nan. reflexivity.
Qed.

Lemma np_sum_zeros (m : nat) : np_sum (replicate m 0%float) = 0%float.
Proof.
  unfold np_sum. induction m as [|m IH]; [done|]. exact IH.
Qed.

Lemma np_sum_nans (m : nat) : np_sum (replicate (S m) nan) = nan.
Proof.
  unfold np_sum. cbn.
  change (fadd fzero nan) with nan.
  induction m as [|m IH]; [done|]. exact IH.
Qed.

Lemma zip_with_zeros (f : float -> float -> float) (k : nat) :
  f 0%float 0%float = 0%float ->
  zip_with f (replicate k 0%float) (replicate k 0%float) = replicate k 0%float.
Proof. intros Hf. induction k as [|k IH]; cbn; [done|]. by rewrite Hf, IH. Qed.

Lemma sum_axis0_zeros (n k : nat) :
  fold_left (zip_with fadd) (replicate n (replicate k 0%float)) (replicate k 0%float)
    = replicate k 0%float.
Proof.
  induction n as [|n IH]; cbn; [done|].
  by rewrite zip_with_zeros.
Qed.

(** The score of an empty delta is a missing value. *)
Lemma importance_of_empty (k : nat) : importance_of (NdArray 0 k []) = nan.
Proof.
  unfold importance_of, np_mean, np_std_axis0, np_sum_axis0. cbn [rows ncols nrows fold_left map].
  rewrite !map_replicate, length_replicate.
  change (fsqrt (fdiv fzero (fof_nat 0))) with nan.
  destruct k as [|k]; [done|].
  rewrite np_sum_nans. apply fdiv_nan_l.
Qed.

(** The score of a delta of zeros is zero. *)
Lemma importance_of_zeros (n k : nat) :
  fdiv 0%float (fof_nat n) = 0%float ->
  fdiv 0%float (fof_nat k) = 0%float ->
  importance_of (NdArray n k (replicate n (replicate k 0%float))) = 0%float.
Proof.
  intros Hn Hk.
  unfold importance_of, np_mean, np_std_axis0, np_sum_axis0. cbn [rows ncols nrows].
  rewrite sum_axis0_zeros, !map_replicate. cbn [fzero float_Num]. rewrite Hn.
  rewrite zip_with_zeros by done. rewrite map_replicate.
  change (fmul 0%float 0%float) with 0%float.
  rewrite sum_axis0_zeros, map_replicate, Hn.
  change (fsqrt 0%float) with 0%float.
  rewrite length_replicate, np_sum_zeros. exact Hk.
Qed.

Lemma nd_sub_empty (k : nat) :
  nd_sub (NdArray 0 k []) (NdArray 0 k []) = Ok (NdArray (F := float) 0 k []).
Proof. unfold nd_sub, broadcast_dim. cbn. by rewrite Nat.eqb_refl. Qed.

Lemma zip_with_sub_self (r : list float) :
  Forall (fun x => fsub x x = 0%float) r ->
  zip_with fsub r r = replicate (length r) 0%float.
Proof.
  induction 1 as [|x r Hx _ IH]; cbn [zip_with length replicate]; [done|].
  by rewrite Hx, IH.
Qed.

(** Predictions minus themselves are zeros, for finite predictions. *)
Lemma nd_sub_self (P : ndarray float) :
  well_shaped P ->
  Forall (Forall (fun x => fsub x x = 0%float)) (rows P) ->
  nd_sub P P =
    Ok (NdArray (nrows P) (ncols P)
          (replicate (nrows P) (replicate (ncols P) 0%float))).
Proof.
  intros [Hn Hrows] Hfin. unfold nd_sub, broadcast_dim, broadcast_to.
  rewrite !Nat.eqb_refl. do 2 f_equal. rewrite map_id. rewrite <- Hn.
  clear Hn. induction Hrows as [|r rs Hr _ IH]; cbn; [done|].
  inversion Hfin; subst. rewrite zip_with_sub_self, Hr by done.
  f_equal. by apply IH.
Qed.

Lemma filter_all {A : Type} (p : A -> bool) (l : list A) :
  Forall (fun x => p x = true) l -> List.filter p l = l.
Proof. induction 1 as [|x l Hx _ IH]; cbn; [done|]. by rewrite Hx, IH. Qed.

Lemma filter_none {A : Type} (p : A -> bool) (l : list A) :
  Forall (fun x => p x = false) l -> List.filter p l = [].
Proof. induction 1 as [|x l Hx _ IH]; cbn; [done|]. by rewrite Hx, IH. Qed.

Lemma np_sum_all_zero (l : list float) :
  Forall (fun x => x = 0%float) l -> np_sum l = 0%float.
Proof.
  unfold np_sum. induction 1 as [|x l Hx _ IH]; [done|]. subst x. exact IH.
Qed.

(** Line 73 on scores that are all missing: the sum skips them all, and
    a missing value over zero is a missing value. *)
Lemma normalize_nans (raw : list (string * float)) :
  (forall l, kind l ≡ₚ l) ->
  Forall (fun kv => snd kv = nan) raw ->
  normalize kind raw = raw.
Proof.
  intros Hkind Hnan. unfold normalize, Series_of_dict, sort_values.
  rewrite filter_none, filter_all
    by (eapply Forall_impl; [exact Hnan|]; by intros kv ->).
  rewrite (proj1 (Permutation_nil_r _) (Hkind [])). cbn [app].
  unfold Series_sum. rewrite np_sum_all_zero.
  2: { apply Forall_map. eapply Forall_impl; [exact Hnan|]. by intros kv ->. }
  unfold Series_div. rewrite <- (map_id raw) at 2.
  apply map_ext_Forall. eapply Forall_impl; [exact Hnan|].
  intros [f x]; cbn; by intros ->.
Qed.

(** Line 73 on scores that are all zero: zero over zero, a missing
    value, for every feature. *)
Lemma normalize_zeros (raw : list (string * float)) :
  (forall l, kind l ≡ₚ l) ->
  Forall (fun kv => snd kv = 0%float) raw ->
  Forall (fun kv => snd kv = nan) (normalize kind raw).
Proof.
  intros Hkind Hzero. unfold normalize, Series_of_dict, sort_values.
  rewrite filter_all, filter_none
    by (eapply Forall_impl; [exact Hzero|]; by intros kv ->).
  rewrite app_nil_r.
  assert (Hsorted : Forall (fun kv => snd kv = 0%float) (kind raw))
    by (by rewrite (Hkind raw)).
  unfold Series_sum. rewrite np_sum_all_zero.
  2: { apply Forall_map. eapply Forall_impl; [exact Hsorted|]. by intros kv ->. }
  unfold Series_div. apply Forall_map.
  eapply Forall_impl; [exact Hsorted|]. by intros kv; cbn; intros ->.
Qed.

(** C7, as the code has it. [feature_importance] has no check for an
    empty data set and raises no [ConfigurationError]: when the data set
    has no rows and the model answers on a table without rows with an
    array without rows, the call returns, and the score of every
    feature is a missing value (NaN). *)
Theorem empty_dataset_scores_are_nan (w : world float MS) D k :
  (forall l, kind l ≡ₚ l) ->
  heap w !! data data_set = Some D ->
  index_len D = 0 ->
  Forall (fun f => df_getitem D f = Ok []) (feature_ids data_set) ->
  (forall ms X, index_len X = 0 ->
     exists ms', predict ms X = (Ok (NdArray 0 k []), ms')) ->
  exists w',
    feature_importance predict kind data_set w =
      (Ok (assign_all [] (map (fun f => (f, nan)) (feature_ids data_set))), w').
Proof.
  intros Hkind HD Hidx Hcols Hmodel.
  destruct (feature_importance_uniform predict kind data_set
              (fun P => P = NdArray 0 k []) nan w D HD) as (w' & Hrun).
  - intros ms X HX. rewrite Hidx in HX.
    destruct (Hmodel ms X HX) as (ms' & Hp). exists (NdArray 0 k []), ms'.
    by rewrite Hidx.
  - intros P P0 -> ->. exists (NdArray 0 k []).
    split; [apply nd_sub_empty|apply importance_of_empty].
  - eapply Forall_impl; [exact Hcols|]. intros f Hf. exists []. by rewrite Hidx.
  - exists w'. rewrite Hrun. do 2 f_equal. apply normalize_nans; [done|].
    apply assign_all_Forall; by constructor.
Qed.

(** C2, as the code has it. When the model returns the same finite
    predictions whatever the table, with at least one row and one
    output dimension (and fewer than 2^63), every raw importance is
    zero and
    [feature_importance] divides by their sum all the same: no
    exception is raised, and the call returns a series in which every
    score is zero over zero, a missing value (NaN). *)
Theorem constant_model_scores_are_nan (w : world float MS) D P :
  (forall l, kind l ≡ₚ l) ->
  heap w !! data data_set = Some D ->
  Forall (fun f => exists column,
            df_getitem D f = Ok column /\ length column = index_len D)
    (feature_ids data_set) ->
  well_shaped P ->
  nrows P = index_len D ->
  Forall (Forall (fun x => PrimFloat.is_finite x = true)) (rows P) ->
  (0 < Z.of_nat (nrows P) < 2 ^ 63)%Z ->
  (0 < Z.of_nat (ncols P) < 2 ^ 63)%Z ->
  (forall ms X, exists ms', predict ms X = (Ok P, ms')) ->
  exists raw res w',
    raw_importances predict data_set w = (Ok raw, w')
    /\ Forall (fun kv => snd kv = 0%float) raw
    /\ feature_importance predict kind data_set w = (Ok res, w')
    /\ Forall (fun kv => snd kv = nan) res.
Proof.
  intros Hkind HD Hcols Hws Hrows Hfin Hn Hk Hmodel.
  apply fdiv_zero_count in Hn, Hk.
  assert (Hself : Forall (Forall (fun x => fsub x x = 0%float)) (rows P)).
  { eapply Forall_impl; [exact Hfin|]. intros r Hr.
    eapply Forall_impl; [exact Hr|]. apply fsub_self_finite. }
  clear Hfin.
  destruct (feature_importance_uniform predict kind data_set
              (fun P' => P' = P) 0%float w D HD) as (w' & Hrun).
  - intros ms X _. destruct (Hmodel ms X) as (ms' & Hp). by exists P, ms'.
  - intros ? ? -> ->. eexists. split; [by apply nd_sub_self|].
    by apply importance_of_zeros.
  - done.
  - set (raw := assign_all [] (map (fun f => (f, 0%float)) (feature_ids data_set))) in *.
    assert (Hzero : Forall (fun kv => snd kv = 0%float) raw)
      by (apply assign_all_Forall; by constructor).
    exists raw, (normalize kind raw), w'.
    rewrite feature_importance_unfold in Hrun.
    destruct (raw_importances predict data_set w) as [[raw'|e] w1] eqn:Hraw;
      [|done].
    inversion Hrun as [[Hnorm Hw]]; subst w1.
    rewrite feature_importance_unfold, Hraw.
    assert (raw' = raw) as ->.
    { destruct (raw_importances_sound _ _ _ _ _ _ HD Hraw) as (evs & Hrr & _ & _).
      inversion Hrr as [|P0 ms' evs' ? ? ? Hp Hloop]; subst.
      destruct (Hmodel (model_state w) D) as (ms1 & Hp1).
      assert (P0 = P) as -> by congruence.
      assert (Hres : Ok raw' = Ok raw); [|by inversion Hres].
      eapply (loop_uniform predict (fun P' => P' = P) 0%float P (nrows P) D);
        [done| | |exact Hloop|by rewrite Hrows].
      - intros ms X _. destruct (Hmodel ms X) as (ms2 & Hp2). by exists P, ms2.
      - intros ? ->. eexists. split; [by apply nd_sub_self|].
        by apply importance_of_zeros. }
    split; [done|]. split; [done|]. split; [done|]. by apply normalize_zeros.
Qed.

End Binary64.
(* ------------------------------------------------------------------ *)
(** ** When the call returns and when it cannot *)

Section Outcomes.
Context {F : Type} {N : Num F} {MS : Type}.
Variable predict : MS -> DataFrame F -> result (ndarray F) * MS.
Variable kind : sort_kind F.
Variable COLORS : list string.
Variable data_set : DataSet.

Abbreviation world := (world F MS).
Abbreviation event := (event F).

Lemma alist_get_set_eq {V : Type} (d : list (string * V)) k v :
  alist_get (alist_set d k v) k = Some v.
Proof.
  induction d as [|[k' v'] d IH]; cbn.
  - by rewrite String.eqb_refl.
  - destruct (String.eqb_spec k' k) as [->|Hne]; cbn.
    + by rewrite String.eqb_refl.
    + by destruct (String.eqb_spec k' k).
Qed.

Lemma alist_get_set_ne {V : Type} (d : list (string * V)) k k' v :
  k' <> k -> alist_get (alist_set d k v) k' = alist_get d k'.
Proof.
  intros Hne. induction d as [|[k0 v0] d IH]; cbn.
  - by destruct (String.eqb_spec k k').
  - destruct (String.eqb_spec k0 k) as [->|Hne0]; cbn.
    + by destruct (String.eqb_spec k k').
    + by rewrite IH.
Qed.

Lemma alist_get_Some_keys {V : Type} (d : list (string * V)) k v :
  alist_get d k = Some v -> k ∈ map fst d.
Proof.
  induction d as [|[k' v'] d IH]; cbn; [done|].
  destruct (String.eqb_spec k' k) as [->|Hne]; intros H.
  - apply elem_of_cons. by left.
  - apply elem_of_cons. right. by apply IH.
Qed.

Lemma alist_get_None_keys {V : Type} (d : list (string * V)) k :
  alist_get d k = None -> k ∉ map fst d.
Proof.
  induction d as [|[k' v'] d IH]; cbn; [intros _; apply not_elem_of_nil|].
  destruct (String.eqb_spec k' k) as [->|Hne]; [done|].
  intros H Hin. apply elem_of_cons in Hin as [?|?]; [congruence|by apply IH].
Qed.

(** Overwriting a column that is there keeps the names of the columns
    and their order. *)
Lemma alist_set_present_keys {V : Type} (d : list (string * V)) k v :
  k ∈ map fst d -> map fst (alist_set d k v) = map fst d.
Proof.
  induction d as [|[k' v'] d IH]; cbn; intros Hin.
  - by apply not_elem_of_nil in Hin.
  - destruct (String.eqb_spec k' k) as [->|Hne]; cbn; [done|].
    f_equal. apply IH. apply elem_of_cons in Hin as [?|?]; [congruence|done].
Qed.

Lemma alist_set_Forall_value {V : Type} (Q : V -> Prop) (d : list (string * V)) k v :
  Q v -> Forall (fun c => Q (snd c)) d -> Forall (fun c => Q (snd c)) (alist_set d k v).
Proof.
  intros Hv. induction 1 as [|[k' v'] d Hk Hd IH]; cbn.
  - by constructor.
  - destruct (String.eqb k' k); by constructor.
Qed.

Lemma alist_get_Forall {V : Type} (Q : V -> Prop) (d : list (string * V)) k v :
  Forall (fun c => Q (snd c)) d -> alist_get d k = Some v -> Q v.
Proof.
  induction 1 as [|[k' v'] d Hk Hd IH]; cbn; [done|].
  destruct (String.eqb k' k); [by intros [= <-]|done].
Qed.

Lemma same_layout_refl (D : DataFrame F) : well_formed D -> same_layout D D.
Proof. by intros H. Qed.

(** A column of a well-formed frame that is named is there in full. *)
Lemma well_formed_column (D : DataFrame F) f :
  well_formed D -> f ∈ map fst (columns D) ->
  exists column, df_getitem D f = Ok column /\ length column = index_len D.
Proof.
  intros Hwf Hin. unfold df_getitem.
  destruct (alist_get (columns D) f) as [c|] eqn:Hget.
  - exists c. split; [done|].
    by apply (alist_get_Forall (fun c => length c = index_len D) _ _ _ Hwf Hget).
  - by apply alist_get_None_keys in Hget.
Qed.

(** The table handed to the model has the layout of the data. *)
Lemma perturbed_layout D f n r samples X r' :
  well_formed D ->
  perturbed D f n r = (Ok (samples, X), r') ->
  same_layout D X.
Proof.
  intros Hwf Hpert.
  destruct (perturbed_Ok _ _ _ _ _ _ _ Hpert)
    as (column & Hget & _ & Hlen & _ & Hidx & ->).
  unfold df_getitem in Hget.
  destruct (alist_get (columns D) f) as [c|] eqn:Hc; [|done].
  split; [done|]. split; cbn.
  - apply alist_set_present_keys. by eapply alist_get_Some_keys.
  - unfold well_formed. cbn.
    apply (alist_set_Forall_value (fun c => length c = index_len D)); [lia|done].
Qed.

Lemma nd_sub_same_shape (P P0 : ndarray F) :
  nrows P = nrows P0 -> ncols P = ncols P0 ->
  exists changes, nd_sub P P0 = Ok changes.
Proof.
  intros Hn Hk. unfold nd_sub, broadcast_dim. rewrite Hn, Hk, !Nat.eqb_refl. eauto.
Qed.

(** On well-formed data and with a model that answers every table of
    that layout with an array of one shape, no pass of the loop
    raises. *)
Lemma loop_returns P0 D k :
  well_formed D ->
  (forall ms X, same_layout D X ->
     exists P ms', predict ms X = (Ok P, ms')
                   /\ nrows P = index_len D /\ ncols P = k) ->
  nrows P0 = index_len D -> ncols P0 = k ->
  forall fids imp r ms evs res r' ms',
    loop predict P0 (nrows P0) D fids imp r ms evs res r' ms' ->
    Forall (fun f => f ∈ map fst (columns D)) fids ->
    exists raw, res = Ok raw.
Proof.
  intros Hwf Hmodel Hn Hk fids imp r ms evs res r' ms'.
  induction 1 as [imp r ms|f fs imp r ms evs e r' ms' Hit
                  |f fs imp r ms evs imp' r' ms' evs' res r'' ms'' Hit Hloop IH];
    intros Hcols.
  - eauto.
  - exfalso. apply Forall_cons in Hcols as [Hf _].
    destruct (well_formed_column D f Hwf Hf) as (column & Hget & Hlen).
    destruct (perturbed_total D f (nrows P0) r column Hget ltac:(lia) ltac:(lia))
      as (samples0 & X0 & r0 & Hpert).
    pose proof (perturbed_layout _ _ _ _ _ _ _ Hwf Hpert) as Hlay.
    destruct (Hmodel ms X0 Hlay) as (P1 & ms1 & Hp1 & Hn1 & Hk1).
    destruct (nd_sub_same_shape P1 P0 ltac:(lia) ltac:(lia)) as (ch & Hnd).
    inversion Hit; subst; congruence.
  - apply Forall_cons in Hcols as [_ Hfs]. by apply IH.
Qed.



(** The events of lines 55 to 70 are calls to the model and to the
    sampler: nothing is drawn. *)
Lemma iteration_plot_calls P0 n D imp f r ms evs res r' ms' :
  iteration predict P0 n D imp f r ms evs res r' ms' -> plot_calls evs = [].
Proof. by inversion 1. Qed.

Lemma plot_calls_app (evs evs' : list event) :
  plot_calls (evs ++ evs') = plot_calls evs ++ plot_calls evs'.
Proof. apply omap_app. Qed.

Lemma loop_plot_calls P0 n D fids imp r ms evs res r' ms' :
  loop predict P0 n D fids imp r ms evs res r' ms' -> plot_calls evs = [].
Proof.
  induction 1 as [imp r ms|f fs imp r ms evs e r' ms' Hit
                  |f fs imp r ms evs imp' r' ms' evs' res r'' ms'' Hit Hloop IH].
  - done.
  - by eapply iteration_plot_calls.
  - rewrite plot_calls_app, IH. by erewrite iteration_plot_calls.
Qed.

Lemma raw_run_plot_calls D r ms evs res r' ms' :
  raw_run predict data_set D r ms evs res r' ms' -> plot_calls evs = [].
Proof.
  inversion 1 as [|P0 ms1 evs' ? ? ? Hp Hloop]; subst; [done|].
  cbn. by eapply loop_plot_calls.
Qed.

(** What [feature_importance] adds to the trace holds no chart. *)
Lemma feature_importance_trace (w w' : world) res :
  feature_importance predict kind data_set w = (res, w') ->
  exists evs, trace w' = trace w ++ evs /\ plot_calls evs = [].
Proof.
  intros Hrun. rewrite feature_importance_unfold in Hrun.
  destruct (raw_importances predict data_set w) as [r w1] eqn:Hraw.
  assert (w1 = w') as -> by (destruct r; by inversion Hrun). clear Hrun.
  destruct (heap w !! data data_set) as [D|] eqn:HD.
  - destruct (raw_importances_sound _ _ _ _ _ _ HD Hraw) as (evs & Hrr & Htr & _).
    exists evs. split; [done|]. by eapply raw_run_plot_calls.
  - unfold raw_importances, call_predict, deref, bind in Hraw.
    rewrite HD in Hraw. inversion Hraw; subst. exists []. by rewrite app_nil_r.
Qed.


(** X11. Without feature identifiers the model is asked for the
    baseline all the same, once, and the call returns the empty
    series: nothing is sampled and nothing is divided. *)
Theorem no_features_empty_result (w : world) D P0 ms' :
  (forall l, kind l ≡ₚ l) ->
  heap w !! data data_set = Some D ->
  feature_ids data_set = [] ->
  predict (model_state w) D = (Ok P0, ms') ->
  feature_importance predict kind data_set w =
    (Ok [], World (heap w) (rng w) ms' (trace w ++ [EvPredict D (Ok P0)])).
Proof.
  intros Hkind HD Hnone Hp.
  unfold feature_importance, raw_importances, call_predict, deref, bind, ret.
  rewrite HD, Hp, Hnone. cbn.
  unfold normalize, Series_of_dict, sort_values, Series_div. cbn.
  by rewrite (proj1 (Permutation_nil_r _) (Hkind [])).
Qed.

(** The samples are refused when their number is not the length of the
    column. *)
Lemma perturbed_refused_length D f n r column :
  df_getitem D f = Ok column -> length column <> n ->
  exists msg r', perturbed D f n r = (Raise (ValueError msg), r').
Proof.
  intros Hget Hne. unfold perturbed. rewrite Hget.
  destruct (random_choice column n r) as [[samples|e] r'] eqn:Hrc.
  - pose proof (random_choice_length _ _ _ _ _ Hrc) as Hlen.
    unfold series_sub. rewrite Hlen.
    destruct (Nat.eqb_spec (length column) n); [done|]. eauto.
  - unfold random_choice in Hrc.
    destruct (random_draws column n r).
    destruct column; [destruct n|]; inversion Hrc; subst; eauto.
Qed.

(** X3. The number of samples is the number of rows of the baseline
    predictions (line 58), not of the table. When the model answers the
    data with another number of rows than the column of the first
    feature has, the call raises [ValueError] for that feature: after
    the baseline call and one request for samples, and before the model
    is called again. *)
Theorem row_count_mismatch_raises_ValueError (w : world) D P0 ms' f fs column :
  heap w !! data data_set = Some D ->
  feature_ids data_set = f :: fs ->
  df_getitem D f = Ok column ->
  predict (model_state w) D = (Ok P0, ms') ->
  nrows P0 <> length column ->
  exists msg w',
    feature_importance predict kind data_set w = (Raise (ValueError msg), w')
    /\ trace w' =
         trace w ++ [EvPredict D (Ok P0); EvSample f (nrows P0) "random-choice"].
Proof.
  intros HD Hfids Hget Hp Hne. rewrite feature_importance_unfold.
  destruct (raw_importances predict data_set w) as [res w'] eqn:Hraw.
  destruct (raw_importances_sound _ _ _ _ _ _ HD Hraw) as (evs & Hrr & Htr & _).
  inversion Hrr as [e ms1 Hp1|P1 ms1 evs' ? ? ? Hp1 Hloop]; subst; [congruence|].
  assert (P1 = P0) as -> by congruence.
  destruct (perturbed_refused_length D f (nrows P0) (rng w) column Hget
              ltac:(congruence)) as (msg & r1 & Hpert).
  assert (Hit : forall imp evs res r' ms2,
      iteration predict P0 (nrows P0) D imp f (rng w) ms1 evs res r' ms2 ->
      evs = [EvSample f (nrows P0) "random-choice"]
      /\ res = Raise (ValueError msg)).
  { intros imp evs0 res0 r' ms2 Hit. inversion Hit; subst; split; congruence. }
  rewrite Hfids in Hloop.
  inversion Hloop as [|? ? ? ? ? ? ? ? ? Hstep|? ? ? ? ? ? ? ? ? ? ? ? ? Hstep];
    subst; destruct (Hit _ _ _ _ _ Hstep) as [-> Hres]; [|done].
  inversion Hres; subst. exists msg, w'. by rewrite Htr.
Qed.

(** A loop that completes has found a column for every feature. *)
Lemma loop_needs_columns P0 n D fids imp r ms evs res r' ms' :
  loop predict P0 n D fids imp r ms evs res r' ms' ->
  forall raw, res = Ok raw ->
    Forall (fun f => f ∈ map fst (columns D)) fids.
Proof.
  induction 1 as [imp r ms|f fs imp r ms evs e r' ms' Hit
                  |f fs imp r ms evs imp' r' ms' evs' res r'' ms'' Hit Hloop IH];
    intros raw Hres.
  - constructor.
  - done.
  - destruct (iteration_Ok_inv _ _ _ _ _ _ _ _ _ _ _ _ Hit)
      as (samples & X & P & changes & Hpert & _).
    destruct (perturbed_Ok _ _ _ _ _ _ _ Hpert) as (column & Hget & _).
    constructor; [|by eapply IH].
    unfold df_getitem in Hget.
    destruct (alist_get (columns D) f) as [c|] eqn:Hc; [|done].
    by eapply alist_get_Some_keys.
Qed.

(** X4. A feature identifier that names no column of the table makes
    the call raise: no result is returned in which that feature is left
    out or given a score by default. *)
Theorem unknown_feature_never_returns (w : world) D f :
  heap w !! data data_set = Some D ->
  f ∈ feature_ids data_set ->
  f ∉ map fst (columns D) ->
  exists e w', feature_importance predict kind data_set w = (Raise e, w').
Proof.
  intros HD Hin Hnot. rewrite feature_importance_unfold.
  destruct (raw_importances predict data_set w) as [[raw|e] w'] eqn:Hraw; [|eauto].
  exfalso.
  destruct (raw_importances_sound _ _ _ _ _ _ HD Hraw) as (evs & Hrr & _ & _).
  inversion Hrr as [|P0 ms1 evs' ? ? ? Hp Hloop]; subst.
  pose proof (loop_needs_columns _ _ _ _ _ _ _ _ _ _ _ Hloop raw eq_refl) as Hcols.
  rewrite Forall_forall in Hcols. by apply Hnot, Hcols.
Qed.


Lemma alist_get_elem_of {V : Type} (d : list (string * V)) k v :
  alist_get d k = Some v -> (k, v) ∈ d.
Proof.
  induction d as [|[k' v'] d IH]; cbn; [done|].
  destruct (String.eqb_spec k' k) as [->|Hne].
  - intros [= ->]. apply elem_of_cons. by left.
  - intros H. apply elem_of_cons. right. by apply IH.
Qed.

Lemma elem_of_alist_get {V : Type} (d : list (string * V)) k v :
  NoDup (map fst d) -> (k, v) ∈ d -> alist_get d k = Some v.
Proof.
  induction d as [|[k' v'] d IH]; cbn; intros Hnd Hin.
  - by apply not_elem_of_nil in Hin.
  - apply NoDup_cons in Hnd as [Hk' Hnd].
    apply elem_of_cons in Hin as [[= -> ->]|Hin].
    + by rewrite String.eqb_refl.
    + destruct (String.eqb_spec k' k) as [->|Hne]; [|by apply IH].
      exfalso. apply Hk'. by apply (list_elem_of_fmap_2 fst) in Hin.
Qed.

(** Assigning to a key the value it has changes nothing. *)
Lemma alist_set_same {V : Type} (d : list (string * V)) k v :
  alist_get d k = Some v -> alist_set d k v = d.
Proof.
  induction d as [|[k' v'] d IH]; cbn; [done|].
  destruct (String.eqb_spec k' k) as [->|Hne].
  - by intros [= ->].
  - intros H. by rewrite IH.
Qed.

(** The score of a feature whose every pass gives the score [v]. *)
Lemma loop_score_of P0 n D (f : string) (v : F) :
  (forall imp r ms evs imp' r' ms',
     iteration predict P0 n D imp f r ms evs (Ok imp') r' ms' ->
     imp' = alist_set imp f v) ->
  forall fids imp r ms evs res r' ms',
    loop predict P0 n D fids imp r ms evs res r' ms' ->
    forall raw, res = Ok raw ->
      (f ∈ fids -> alist_get raw f = Some v)
      /\ (f ∉ fids -> alist_get raw f = alist_get imp f).
Proof.
  intros Hstep fids imp r ms evs res r' ms'.
  induction 1 as [imp r ms|f0 fs imp r ms evs e r' ms' Hit
                  |f0 fs imp r ms evs imp' r' ms' evs' res r'' ms'' Hit Hloop IH];
    intros raw Hres.
  - inversion Hres; subst. split; [|done].
    intros Hin. by apply not_elem_of_nil in Hin.
  - done.
  - destruct (IH _ Hres) as [IHin IHout].
    assert (Hget : alist_get imp' f = if decide (f = f0) then Some v else alist_get imp f).
    { destruct (decide (f = f0)) as [->|Hne].
      - rewrite (Hstep _ _ _ _ _ _ _ Hit). apply alist_get_set_eq.
      - destruct (iteration_Ok_inv _ _ _ _ _ _ _ _ _ _ _ _ Hit)
          as (samples & X & P & changes & _ & _ & _ & _ & ->).
        by apply alist_get_set_ne. }
    split.
    + intros Hin. destruct (decide (f ∈ fs)) as [Hfs|Hfs]; [by apply IHin|].
      rewrite (IHout Hfs), Hget.
      apply elem_of_cons in Hin as [->|?]; [|done]. by rewrite decide_True.
    + intros Hout. apply not_elem_of_cons in Hout as [Hne Hfs].
      rewrite (IHout Hfs), Hget. by rewrite decide_False.
Qed.

(** Every score of a completed loop has a property that every score
    computed on line 69 has. *)
Lemma loop_Forall_scores (Q : F -> Prop) P0 n D fids imp r ms evs res r' ms' :
  (forall changes, Q (importance_of changes)) ->
  loop predict P0 n D fids imp r ms evs res r' ms' ->
  forall raw, res = Ok raw ->
    Forall (fun kv => Q (snd kv)) imp -> Forall (fun kv => Q (snd kv)) raw.
Proof.
  intros HQ.
  induction 1 as [imp r ms|f fs imp r ms evs e r' ms' Hit
                  |f fs imp r ms evs imp' r' ms' evs' res r'' ms'' Hit Hloop IH];
    intros raw Hres Himp.
  - by inversion Hres; subst.
  - done.
  - destruct (iteration_Ok_inv _ _ _ _ _ _ _ _ _ _ _ _ Hit)
      as (samples & X & P & changes & _ & _ & _ & _ & ->).
    apply (IH _ Hres). by apply alist_set_Forall_value.
Qed.

(** A draw from a column of identical values is that value. *)
Lemma random_draws_constant (column : list F) (c : F) n :
  column <> [] -> Forall (fun x => x = c) column ->
  forall r, (random_draws column n r).1 = replicate n c.
Proof.
  intros Hne Hc. induction n as [|n IH]; intros r; [done|].
  cbn. specialize (IH (tl r)).
  destruct (random_draws column n (tl r)) as [xs r'] eqn:Hd. cbn in *.
  f_equal; [|done].
  rewrite List.Forall_forall in Hc. apply Hc, nth_In.
  apply Nat.mod_upper_bound. by destruct column.
Qed.

(** Overwriting a column of identical values by samples drawn from it
    gives the table back. *)
Lemma perturbed_constant_column D f n r samples X r' column (c : F) :
  df_getitem D f = Ok column ->
  Forall (fun x => x = c) column ->
  perturbed D f n r = (Ok (samples, X), r') ->
  X = D.
Proof.
  intros Hget Hc Hpert.
  destruct (perturbed_Ok _ _ _ _ _ _ _ Hpert)
    as (column' & Hget' & Hrc & Hlen & Hcol & Hidx & ->).
  assert (column' = column) as -> by congruence.
  assert (samples = column) as ->.
  { unfold random_choice in Hrc.
    assert (Hcases : column = [] \/ column <> [])
      by (destruct column; [by left|by right]).
    destruct Hcases as [->|Hne].
    - destruct n; [|done]. cbn in Hrc. by inversion Hrc.
    - pose proof (random_draws_constant column c n Hne Hc r) as Hd.
      destruct (random_draws column n r) as [xs r1]. cbn in Hd.
      assert (xs = samples) as <- by (destruct column, n; by inversion Hrc).
      rewrite Hd, <- Hcol. clear -Hc.
      induction Hc as [|y l -> _ IH]; cbn; [done|]. by rewrite IH. }
  unfold df_getitem in Hget.
  destruct (alist_get (columns D) f) as [c0|] eqn:Hc0; [|done].
  inversion Hget; subst c0. rewrite (alist_set_same _ _ _ Hc0). by destruct D.
Qed.


(** The score of a feature in the returned series: its raw score over
    the sum. *)
Lemma normalize_lookup (raw : list (string * F)) f x :
  (forall l, kind l ≡ₚ l) ->
  NoDup (map fst raw) ->
  alist_get raw f = Some x ->
  alist_get (normalize kind raw) f =
    Some (fdiv x (Series_sum (sort_values kind (Series_of_dict raw)))).
Proof.
  intros Hkind Hnd Hget. apply elem_of_alist_get.
  - by rewrite (normalize_keys kind raw Hkind).
  - unfold normalize, Series_div.
    apply (list_elem_of_fmap_2'
             (fun kv : string * F => (kv.1, fdiv kv.2 (Series_sum (sort_values kind (Series_of_dict raw)))))
             _ (f, x)); [|done].
    rewrite (sort_values_perm kind _ Hkind). by apply alist_get_elem_of.
Qed.

(** The raw scores of a call that returns have distinct keys. *)
Lemma raw_importances_NoDup (w w' : world) raw :
  raw_importances predict data_set w = (Ok raw, w') -> NoDup (map fst raw).
Proof.
  intros Hraw.
  destruct (heap w !! data data_set) as [D|] eqn:HD.
  2: { unfold raw_importances, call_predict, deref, bind in Hraw.
       by rewrite HD in Hraw. }
  destruct (raw_importances_sound _ _ _ _ _ _ HD Hraw) as (evs & Hrr & _ & _).
  inversion Hrr as [|P0 ms' evs' ? ? ? Hp Hloop]; subst.
  destruct (loop_keys _ _ _ _ _ _ _ _ _ _ _ _ Hloop raw eq_refl) as [Hnd _].
  apply Hnd. constructor.
Qed.


(** A run is determined by the world it starts in. *)
Lemma iteration_det P0 n D imp f r ms evs1 res1 r1 ms1 evs2 res2 r2 ms2 :
  iteration predict P0 n D imp f r ms evs1 res1 r1 ms1 ->
  iteration predict P0 n D imp f r ms evs2 res2 r2 ms2 ->
  evs1 = evs2 /\ res1 = res2 /\ r1 = r2 /\ ms1 = ms2.
Proof.
  inversion 1; inversion 1; subst; simplify_eq; repeat split; congruence.
Qed.

Lemma loop_det P0 n D fids imp r ms evs1 res1 r1 ms1 :
  loop predict P0 n D fids imp r ms evs1 res1 r1 ms1 ->
  forall evs2 res2 r2 ms2,
    loop predict P0 n D fids imp r ms evs2 res2 r2 ms2 ->
    res1 = res2 /\ r1 = r2 /\ ms1 = ms2.
Proof.
  induction 1 as [imp r ms|f fs imp r ms evs e r' ms' Hit
                  |f fs imp r ms evs imp' r' ms' evs' res r'' ms'' Hit Hloop IH];
    intros evs2 res2 r2 ms2 Hother.
  - by inversion Hother.
  - inversion Hother as [|? ? ? ? ? ? ? ? ? Hit2|? ? ? ? ? ? ? ? ? ? ? ? ? Hit2 Hloop2];
      subst; destruct (iteration_det _ _ _ _ _ _ _ _ _ _ _ _ _ _ _ Hit Hit2)
        as (_ & ? & ? & ?); by simplify_eq.
  - inversion Hother as [|? ? ? ? ? ? ? ? ? Hit2|? ? ? ? ? ? ? ? ? ? ? ? ? Hit2 Hloop2];
      subst; destruct (iteration_det _ _ _ _ _ _ _ _ _ _ _ _ _ _ _ Hit Hit2)
        as (_ & ? & ? & ?); simplify_eq.
    by eapply IH.
Qed.

Lemma raw_run_det D r ms evs1 res1 r1 ms1 evs2 res2 r2 ms2 :
  raw_run predict data_set D r ms evs1 res1 r1 ms1 ->
  raw_run predict data_set D r ms evs2 res2 r2 ms2 ->
  res1 = res2 /\ r1 = r2 /\ ms1 = ms2.
Proof.
  inversion 1 as [e1 ms1' Hp1|P1 ms1' evs1' ? ? ? Hp1 Hloop1];
    inversion 1 as [e2 ms2' Hp2|P2 ms2' evs2' ? ? ? Hp2 Hloop2];
    subst; simplify_eq; try congruence.
  - assert (e1 = e2 /\ ms1 = ms2) as [-> ->] by (split; congruence). done.
  - assert (P1 = P2 /\ ms1' = ms2') as [-> ->] by (split; congruence).
    by eapply loop_det.
Qed.

Lemma alist_get_not_keys {V : Type} (d : list (string * V)) k :
  k ∉ map fst d -> alist_get d k = None.
Proof.
  intros Hk. destruct (alist_get d k) as [v|] eqn:Hget; [|done].
  by apply alist_get_Some_keys in Hget.
Qed.


(** The tables of a pass, of the loop and of lines 55 to 70 have the
    layout of the data. *)
Lemma loop_layout P0 n D fids imp r ms evs res r' ms' :
  well_formed D ->
  loop predict P0 n D fids imp r ms evs res r' ms' ->
  Forall (fun call => same_layout D (fst call)) (predict_calls evs).
Proof.
  intros Hwf.
  assert (Hstep : forall imp f r ms evs res r' ms',
    iteration predict P0 n D imp f r ms evs res r' ms' ->
    Forall (fun call => same_layout D (fst call)) (predict_calls evs)).
  { intros imp0 f r0 ms0 evs0 res0 r1 ms1 Hit.
    inversion Hit; subst; cbn; repeat constructor;
      by eapply perturbed_layout. }
  induction 1 as [imp r ms|f fs imp r ms evs e r' ms' Hit
                  |f fs imp r ms evs imp' r' ms' evs' res r'' ms'' Hit Hloop IH].
  - constructor.
  - by eapply Hstep.
  - rewrite predict_calls_app. apply Forall_app. split; [by eapply Hstep|done].
Qed.

(** X14. Whether the call returns or raises, every table it hands to
    the model has the layout of the data set's table, when that one is
    well formed: the same number of rows and the same columns under the
    same names in the same order, each of full length. No column is
    added, dropped or moved. *)
Theorem model_sees_layout_of_data (w w' : world) res D :
  heap w !! data data_set = Some D ->
  well_formed D ->
  feature_importance predict kind data_set w = (res, w') ->
  exists evs,
    trace w' = trace w ++ evs
    /\ Forall (fun call => same_layout D (fst call)) (predict_calls evs).
Proof.
  intros HD Hwf Hrun. rewrite feature_importance_unfold in Hrun.
  destruct (raw_importances predict data_set w) as [r w1] eqn:Hraw.
  assert (w1 = w') as -> by (destruct r; by inversion Hrun). clear Hrun.
  destruct (raw_importances_sound _ _ _ _ _ _ HD Hraw) as (evs & Hrr & Htr & _).
  exists evs. split; [done|].
  inversion Hrr as [e ms1 Hp|P0 ms1 evs' ? ? ? Hp Hloop]; subst; cbn.
  - repeat constructor. by apply same_layout_refl.
  - constructor; [by apply same_layout_refl|]. by eapply loop_layout.
Qed.


(** Arrays whose shapes do not broadcast cannot be subtracted. *)
Lemma nd_sub_unbroadcastable (P P0 : ndarray F) :
  broadcast_dim (nrows P) (nrows P0) = None
  \/ broadcast_dim (ncols P) (ncols P0) = None ->
  nd_sub P P0 = Raise (ValueError "operands could not be broadcast together").
Proof.
  unfold nd_sub. intros [->| ->]; [done|].
  by destruct (broadcast_dim (nrows P) (nrows P0)).
Qed.

Lemma loop_stops_at_shape_mismatch P0 n D fids imp r ms evs res r' ms' :
  loop predict P0 n D fids imp r ms evs res r' ms' ->
  forall pre X P e post,
    evs = pre ++ EvPredict X (Ok P) :: post ->
    nd_sub P P0 = Raise e ->
    post = [] /\ res = Raise e.
Proof.
  induction 1 as [imp r ms|f fs imp r ms evs e r' ms' Hit
                  |f fs imp r ms evs imp' r' ms' evs' res r'' ms'' Hit Hloop IH];
    intros pre X0 P1 e1 post Heq Hnd.
  - by destruct pre.
  - revert pre X0 P1 e1 post Heq Hnd.
    inversion Hit; subst; intros pre X0 P1 e1 post Heq Hnd;
      destruct pre as [|? [|? [|? ?]]]; cbn in Heq; simplify_eq.
    split; [done|congruence].
  - destruct (iteration_Ok_inv _ _ _ _ _ _ _ _ _ _ _ _ Hit)
      as (samples & X & P & changes & _ & _ & Hok & -> & _).
    destruct pre as [|? [|? pre]]; cbn in Heq; simplify_eq; [congruence|].
    by eapply IH.
Qed.

(** X16. An answer of the model whose shape cannot be broadcast against
    the shape of the baseline predictions makes the call raise
    [ValueError] on the spot: the subtraction of line 68 is the last
    thing the call does, no score is computed from that answer and the
    model is not called again. *)
Theorem unbroadcastable_answer_raises_ValueError (w w' : world) res D :
  heap w !! data data_set = Some D ->
  feature_importance predict kind data_set w = (res, w') ->
  exists evs,
    trace w' = trace w ++ evs
    /\ forall P0 calls X P post,
         evs = EvPredict D (Ok P0) :: calls ++ EvPredict X (Ok P) :: post ->
         broadcast_dim (nrows P) (nrows P0) = None
         \/ broadcast_dim (ncols P) (ncols P0) = None ->
         post = [] /\ exists msg, res = Raise (ValueError msg).
Proof.
  intros HD Hrun. rewrite feature_importance_unfold in Hrun.
  destruct (raw_importances predict data_set w) as [r w1] eqn:Hraw.
  destruct (raw_importances_sound _ _ _ _ _ _ HD Hraw) as (evs & Hrr & Htr & _).
  assert (w1 = w') as -> by (destruct r; by inversion Hrun).
  assert (Hres : forall e, r = Raise e -> res = Raise e)
    by (intros e ->; by inversion Hrun).
  clear Hrun. exists evs. split; [done|].
  inversion Hrr as [e1 ms' Hp|P1 ms' evs' ? ? ? Hp Hloop]; subst;
    intros P0 calls X P post Heq Hshape;
    apply nd_sub_unbroadcastable in Hshape.
  - destruct calls; cbn in Heq; simplify_eq.
  - cbn in Heq. simplify_eq.
    destruct (loop_stops_at_shape_mismatch _ _ _ _ _ _ _ _ _ _ _ Hloop _ _ _ _ _
                eq_refl Hshape) as [-> ->].
    split; [done|]. eexists. by apply Hres.
Qed.

(** Every score of a completed loop has a property that the score of
    every completed pass has. *)
Lemma loop_Forall_passes (Q : F -> Prop) P0 n D fids imp r ms evs res r' ms' :
  (forall imp f r ms evs imp' r' ms',
     iteration predict P0 n D imp f r ms evs (Ok imp') r' ms' ->
     exists v, Q v /\ imp' = alist_set imp f v) ->
  loop predict P0 n D fids imp r ms evs res r' ms' ->
  forall raw, res = Ok raw ->
    Forall (fun kv => Q (snd kv)) imp -> Forall (fun kv => Q (snd kv)) raw.
Proof.
  intros HQ.
  induction 1 as [imp r ms|f fs imp r ms evs e r' ms' Hit
                  |f fs imp r ms evs imp' r' ms' evs' res r'' ms'' Hit Hloop IH];
    intros raw Hres Himp.
  - by inversion Hres; subst.
  - done.
  - destruct (HQ _ _ _ _ _ _ _ _ Hit) as (v & Hv & ->).
    apply (IH _ Hres). by apply alist_set_Forall_value.
Qed.

End Outcomes.

(* ------------------------------------------------------------------ *)
(** ** Scores in binary64 *)

Section Binary64Scores.
Context {MS : Type}.
Variable predict : MS -> DataFrame float -> result (ndarray float) * MS.
Variable kind : sort_kind float.
Variable data_set : DataSet.

(** Zero over a positive number is zero. *)
Lemma fdiv_zero_positive (y : float) :
  PrimFloat.ltb 0 y = true -> fdiv 0%float y = 0%float.
Proof.
  intros Hlt. apply Prim2SF_inj. cbn [fdiv float_Num]. rewrite div_spec.
  rewrite ltb_spec in Hlt. change (Prim2SF 0) with (S754_zero false) in *.
  destruct (Prim2SF y) as [s|s| |s m e]; try destruct s; cbn in *; done.
Qed.

(** A pass whose table gets the baseline's answer scores zero. *)
Lemma unchanged_prediction_scores_zero P0 D f :
  well_shaped P0 ->
  Forall (Forall (fun x => PrimFloat.is_finite x = true)) (rows P0) ->
  (0 < Z.of_nat (nrows P0) < 2 ^ 63)%Z ->
  (0 < Z.of_nat (ncols P0) < 2 ^ 63)%Z ->
  (forall samples X r r' ms,
     perturbed D f (nrows P0) r = (Ok (samples, X), r') ->
     fst (predict ms X) = Ok P0) ->
  forall fids imp r ms evs res r' ms',
    loop predict P0 (nrows P0) D fids imp r ms evs res r' ms' ->
    forall raw, res = Ok raw -> f ∈ fids -> alist_get raw f = Some 0%float.
Proof.
  intros Hws Hfin Hn Hk Hsame fids imp r ms evs res r' ms' Hloop raw Hres Hin.
  apply fdiv_zero_count in Hn, Hk.
  assert (Hself : Forall (Forall (fun x => fsub x x = 0%float)) (rows P0)).
  { eapply Forall_impl; [exact Hfin|]. intros row Hrow.
    eapply Forall_impl; [exact Hrow|]. apply fsub_self_finite. }
  eapply (loop_score_of predict P0 (nrows P0) D f 0%float); [|exact Hloop|exact Hres|exact Hin].
  clear -Hws Hself Hn Hk Hsame.
  intros imp r ms evs imp' r' ms' Hit.
  destruct (iteration_Ok_inv _ _ _ _ _ _ _ _ _ _ _ _ Hit)
    as (samples & X & P & changes & Hpert & Hp & Hnd & _ & ->).
  pose proof (Hsame _ _ _ _ ms Hpert) as HP. rewrite Hp in HP. cbn in HP.
  inversion HP; subst P.
  rewrite (nd_sub_self P0 Hws Hself) in Hnd. inversion Hnd; subst changes.
  by rewrite importance_of_zeros.
Qed.

(** X5. A feature the model does not read scores zero. When the answer
    of the model is finite, has at least one row and one column, and
    depends neither on the column of [f] nor on the state of the model,
    the raw importance of [f] is exactly zero; and where the raw scores
    add up to a positive number, so is its score in the result. *)
Theorem ignored_feature_scores_zero (w w' : world float MS) D P0 ms0 raw f :
  (forall l, kind l ≡ₚ l) ->
  heap w !! data data_set = Some D ->
  predict (model_state w) D = (Ok P0, ms0) ->
  well_shaped P0 ->
  Forall (Forall (fun x => PrimFloat.is_finite x = true)) (rows P0) ->
  (0 < Z.of_nat (nrows P0) < 2 ^ 63)%Z ->
  (0 < Z.of_nat (ncols P0) < 2 ^ 63)%Z ->
  (forall ms ms1 X values X',
     df_setitem X f values = Ok X' -> fst (predict ms X') = fst (predict ms1 X)) ->
  f ∈ feature_ids data_set ->
  raw_importances predict data_set w = (Ok raw, w') ->
  alist_get raw f = Some 0%float
  /\ (PrimFloat.ltb 0 (Series_sum (sort_values kind raw)) = true ->
      alist_get (normalize kind raw) f = Some 0%float).
Proof.
  intros Hkind HD Hp0 Hws Hfin Hn Hk Hignore Hin Hraw.
  pose proof (raw_importances_NoDup _ _ _ _ _ Hraw) as Hnd.
  destruct (raw_importances_sound _ _ _ _ _ _ HD Hraw) as (evs & Hrr & _ & _).
  inversion Hrr as [|P1 ms1 evs' ? ? ? Hp Hloop]; subst.
  assert (P1 = P0) as -> by congruence.
  assert (Hzero : alist_get raw f = Some 0%float).
  { eapply unchanged_prediction_scores_zero; try done.
    intros samples X r r' ms Hpert.
    destruct (perturbed_Ok _ _ _ _ _ _ _ Hpert)
      as (column & _ & _ & Hlen & _ & Hidx & HX).
    assert (Hset : df_setitem D f samples = Ok X).
    { unfold df_setitem. by rewrite Hlen, Hidx, Nat.eqb_refl, HX, Hidx. }
    rewrite (Hignore ms (model_state w) D samples X Hset). by rewrite Hp0. }
  split; [done|]. intros Hpos.
  rewrite (normalize_lookup kind raw f 0%float Hkind Hnd Hzero).
  f_equal. by apply fdiv_zero_positive.
Qed.

(** X6. A feature whose column holds one and the same value in every
    row scores zero: the samples drawn from it are the column itself,
    and a model whose answer is finite and depends on the table alone
    answers as it did for the baseline. *)
Theorem constant_column_scores_zero (w w' : world float MS) D P0 ms0 raw f column c :
  heap w !! data data_set = Some D ->
  predict (model_state w) D = (Ok P0, ms0) ->
  well_shaped P0 ->
  Forall (Forall (fun x => PrimFloat.is_finite x = true)) (rows P0) ->
  (0 < Z.of_nat (nrows P0) < 2 ^ 63)%Z ->
  (0 < Z.of_nat (ncols P0) < 2 ^ 63)%Z ->
  (forall ms ms1 X, fst (predict ms X) = fst (predict ms1 X)) ->
  df_getitem D f = Ok column ->
  Forall (fun x => x = c) column ->
  f ∈ feature_ids data_set ->
  raw_importances predict data_set w = (Ok raw, w') ->
  alist_get raw f = Some 0%float.
Proof.
  intros HD Hp0 Hws Hfin Hn Hk Hdet Hget Hc Hin Hraw.
  destruct (raw_importances_sound _ _ _ _ _ _ HD Hraw) as (evs & Hrr & _ & _).
  inversion Hrr as [|P1 ms1 evs' ? ? ? Hp Hloop]; subst.
  assert (P1 = P0) as -> by congruence.
  eapply unchanged_prediction_scores_zero; try done.
  intros samples X r r' ms Hpert.
  rewrite (perturbed_constant_column D f _ _ _ _ _ column c Hget Hc Hpert).
  rewrite (Hdet ms (model_state w) D). by rewrite Hp0.
Qed.


(** *** No score is negative *)

(** Rounding a magnitude gives no negative sign to a number that has
    none. *)
Lemma binary_round_aux_sign_plus (m e : Z) (l : location) :
  sign_plus (binary_round_aux prec emax false m e l) = true.
Proof.
  unfold binary_round_aux.
  destruct (shr_fexp prec emax m e l) as [mrs1 e1].
  destruct (shr_fexp prec emax _ e1 loc_Exact) as [mrs2 e2].
  destruct (shr_m mrs2); [done| |done].
  by destruct (e2 <=? emax - prec)%Z.
Qed.

Lemma sign_plus_clear (s : spec_float) : sign_plus s = true -> sign_clear s = true.
Proof. by destruct s as [[]|[]| |[] ? ?]. Qed.

Lemma SFsqrt_sign_clear (s : spec_float) : sign_clear (SFsqrt prec emax s) = true.
Proof.
  destruct s as [[]|[]| |[] m e]; try done.
  unfold SFsqrt. destruct (SFsqrt_core_binary prec emax (Z.pos m) e) as [[mz ez] lz].
  apply sign_plus_clear, binary_round_aux_sign_plus.
Qed.

Lemma binary_round_sign_plus (m : positive) (e : Z) :
  sign_plus (binary_round prec emax false m e) = true.
Proof.
  unfold binary_round. destruct (shl_align m e _) as [mz ez].
  apply binary_round_aux_sign_plus.
Qed.

(** Adding a number without negative sign to a sum without negative
    sign: the sum starts from the positive zero and never becomes the
    negative one. *)
Lemma SFadd_sign_plus (a y : spec_float) :
  sign_plus a = true -> sign_clear y = true ->
  sign_plus (SFadd prec emax a y) = true.
Proof.
  destruct a as [[]|[]| |[] ma ea], y as [[]|[]| |[] my ey]; try done.
  intros _ _. unfold SFadd. cbn [cond_Zopp Z.add].
  apply binary_round_sign_plus.
Qed.

(** A number without negative sign over a count or a sum. *)
Lemma SFdiv_sign_clear (x y : spec_float) :
  sign_clear x = true -> sign_plus y = true ->
  sign_clear (SFdiv prec emax x y) = true.
Proof.
  destruct x as [[]|[]| |[] mx ex], y as [[]|[]| |[] my ey]; try done.
  intros _ _. unfold SFdiv.
  destruct (SFdiv_core_binary prec emax (Z.pos mx) ex (Z.pos my) ey) as [[mz ez] lz].
  apply sign_plus_clear, binary_round_aux_sign_plus.
Qed.

Lemma fof_nat_sign_plus (n : nat) : sign_plus (Prim2SF (fof_nat n)) = true.
Proof.
  cbn [fof_nat float_Num]. rewrite of_uint63_spec.
  pose proof (Uint63.to_Z_bounded (Uint63.of_Z (Z.of_nat n))) as Hb.
  destruct (Uint63.to_Z (Uint63.of_Z (Z.of_nat n))) as [|p|p]; [done| |lia].
  apply binary_round_sign_plus.
Qed.

Lemma np_sum_sign_plus (v : list float) :
  Forall (fun x => sign_clear (Prim2SF x) = true) v ->
  sign_plus (Prim2SF (np_sum v)) = true.
Proof.
  unfold np_sum. cbn [fzero fadd float_Num].
  assert (H0 : sign_plus (Prim2SF 0%float) = true) by done.
  revert H0. generalize 0%float.
  intros acc Hacc Hv. revert acc Hacc.
  induction Hv as [|x v Hx _ IH]; intros acc Hacc; [done|].
  cbn. apply IH. rewrite add_spec. by apply SFadd_sign_plus.
Qed.

(** The score computed on line 69 has no negative sign, whatever the
    delta. *)
Lemma importance_of_sign_clear (changes : ndarray float) :
  sign_clear (Prim2SF (importance_of changes)) = true.
Proof.
  unfold importance_of, np_mean, np_std_axis0.
  set (v := map _ _). cbn [fdiv float_Num]. rewrite div_spec.
  apply SFdiv_sign_clear; [|apply fof_nat_sign_plus].
  apply sign_plus_clear, np_sum_sign_plus.
  unfold v. apply Forall_map, Forall_true. intros s.
  cbn [fsqrt float_Num]. rewrite sqrt_spec. apply SFsqrt_sign_clear.
Qed.

Lemma sign_clear_not_negative (x : float) :
  sign_clear (Prim2SF x) = true -> not_negative x.
Proof.
  unfold not_negative. rewrite ltb_spec.
  change (Prim2SF 0) with (S754_zero false).
  by destruct (Prim2SF x) as [[]|[]| |[] ? ?].
Qed.

(** Lines 72 and 73 keep the scores free of a negative sign. *)
Lemma normalize_sign_clear (raw : list (string * float)) :
  (forall l, kind l ≡ₚ l) ->
  Forall (fun kv => sign_clear (Prim2SF (snd kv)) = true) raw ->
  Forall (fun kv => sign_clear (Prim2SF (snd kv)) = true) (normalize kind raw).
Proof.
  intros Hkind Hraw. unfold normalize, Series_of_dict.
  set (sorted := sort_values kind raw).
  assert (Hsorted : Forall (fun kv => sign_clear (Prim2SF (snd kv)) = true) sorted)
    by (unfold sorted; by rewrite (sort_values_perm kind raw Hkind)).
  assert (Hsum : sign_plus (Prim2SF (Series_sum sorted)) = true).
  { unfold Series_sum. apply np_sum_sign_plus, Forall_map.
    eapply Forall_impl; [exact Hsorted|]. intros kv Hkv.
    cbn [snd fisnan fzero float_Num]. by destruct (PrimFloat.is_nan kv.2). }
  unfold Series_div. apply Forall_map.
  eapply Forall_impl; [exact Hsorted|]. intros kv Hkv. cbn [snd fdiv float_Num].
  rewrite div_spec. by apply SFdiv_sign_clear.
Qed.

(** X12. In binary64 no score is negative, neither a raw importance
    nor a score of the returned series: each is a missing value (NaN)
    or is not below zero, whatever the model answers. *)
Theorem scores_never_negative (w w' : world float MS) raw :
  (forall l, kind l ≡ₚ l) ->
  raw_importances predict data_set w = (Ok raw, w') ->
  exists res,
    feature_importance predict kind data_set w = (Ok res, w')
    /\ Forall (fun kv => not_negative (snd kv)) raw
    /\ Forall (fun kv => not_negative (snd kv)) res.
Proof.
  intros Hkind Hraw. exists (normalize kind raw).
  rewrite feature_importance_unfold, Hraw. split; [done|].
  assert (Hclear : Forall (fun kv => sign_clear (Prim2SF (snd kv)) = true) raw).
  { destruct (heap w !! data data_set) as [D|] eqn:HD.
    2: { unfold raw_importances, call_predict, deref, bind in Hraw.
         by rewrite HD in Hraw. }
    destruct (raw_importances_sound _ _ _ _ _ _ HD Hraw) as (evs & Hrr & _ & _).
    inversion Hrr as [|P0 ms' evs' ? ? ? Hp Hloop]; subst.
    eapply (loop_Forall_scores predict (fun x => sign_clear (Prim2SF x) = true));
      [apply importance_of_sign_clear|exact Hloop|done|constructor]. }
  split.
  - eapply Forall_impl; [exact Hclear|]. intros kv. apply sign_clear_not_negative.
  - eapply Forall_impl; [exact (normalize_sign_clear raw Hkind Hclear)|].
    intros kv. apply sign_clear_not_negative.
Qed.


(** *** A missing value among the baseline predictions *)

Lemma fadd_nan_l (y : float) : fadd nan y = nan.
Proof.
  apply Prim2SF_inj. cbn [fadd float_Num]. rewrite add_spec.
  change (Prim2SF nan) with S754_nan. reflexivity.
Qed.

Lemma fadd_nan_r (x : float) : fadd x nan = nan.
Proof.
  apply Prim2SF_inj. cbn [fadd float_Num]. rewrite add_spec.
  change (Prim2SF nan) with S754_nan. by destruct (Prim2SF x) as [[]|[]| |[] ? ?].
Qed.

Lemma fsub_nan_r (x : float) : fsub x nan = nan.
Proof.
  apply Prim2SF_inj. cbn [fsub float_Num]. rewrite sub_spec.
  change (Prim2SF nan) with S754_nan. by destruct (Prim2SF x) as [[]|[]| |[] ? ?].
Qed.

Lemma fold_add_nan (l : list float) : fold_left fadd l nan = nan.
Proof.
  induction l as [|x l IH]; cbn [fold_left]; [done|]. by rewrite fadd_nan_l.
Qed.

(** A sum over a missing value is a missing value. *)
Lemma np_sum_nan (l : list float) :
  Exists (fun x => x = nan) l -> np_sum l = nan.
Proof.
  intros Hnan. unfold np_sum. generalize (@fzero float _).
  induction Hnan as [x l ->|x l _ IH]; intros acc; cbn [fold_left].
  - rewrite fadd_nan_r. apply fold_add_nan.
  - apply IH.
Qed.

(** So is a standard deviation. *)
Lemma stddev_nan (xs : list float) :
  Exists (fun x => x = nan) xs -> stddev xs = nan.
Proof.
  intros Hnan. unfold stddev. rewrite (np_sum_nan xs Hnan), fdiv_nan_l.
  rewrite (map_ext _ (fun _ => nan)).
  2: { intros x. by rewrite fsub_nan_r. }
  rewrite np_sum_nan, fdiv_nan_l; [done|].
  destruct Hnan; cbn; by constructor.
Qed.

(** The score of a delta that holds a missing value is a missing
    value. *)
Lemma importance_of_nan (changes : ndarray float) :
  well_shaped changes -> holds_nan changes -> importance_of changes = nan.
Proof.
  intros Hws (i & j & row & Hrow & Hj).
  rewrite (importance_of_spec _ Hws). unfold spec_importance.
  rewrite np_sum_nan; [apply fdiv_nan_l|].
  destruct Hws as [_ Hrows].
  assert (Hin : row ∈ rows changes) by (by eapply list_elem_of_lookup_2).
  assert (Hlen : length row = ncols changes)
    by (rewrite Forall_forall in Hrows; by apply Hrows).
  apply Exists_exists. exists (stddev (column changes j)). split.
  - apply (list_elem_of_fmap_2' _ _ j); [|done].
    apply elem_of_seq. apply lookup_lt_Some in Hj. lia.
  - apply stddev_nan. apply Exists_exists. exists nan. split; [|done].
    unfold column. apply (list_elem_of_fmap_2' _ _ row); [done|].
    symmetry. by apply nth_lookup_Some.
Qed.

Lemma nd_sub_same_shape_rows (P P0 : ndarray float) :
  nrows P = nrows P0 -> ncols P = ncols P0 ->
  nd_sub P P0 =
    Ok (NdArray (nrows P0) (ncols P0) (zip_with (zip_with fsub) (rows P) (rows P0))).
Proof.
  intros Hn Hk. unfold nd_sub, broadcast_dim, broadcast_to.
  rewrite Hn, Hk, !Nat.eqb_refl. by rewrite !map_id.
Qed.

(** The delta to a baseline that holds a missing value holds one. *)
Lemma nd_sub_holds_nan (P P0 changes : ndarray float) :
  well_shaped P -> well_shaped P0 ->
  nrows P = nrows P0 -> ncols P = ncols P0 ->
  holds_nan P0 ->
  nd_sub P P0 = Ok changes ->
  holds_nan changes.
Proof.
  intros [HnP HrP] [HnP0 HrP0] Hn Hk (i & j & row0 & Hrow0 & Hj) Hnd.
  rewrite (nd_sub_same_shape_rows P P0 Hn Hk) in Hnd. inversion Hnd; subst changes.
  assert (Hi : i < length (rows P))
    by (apply lookup_lt_Some in Hrow0; lia).
  destruct (lookup_lt_is_Some_2 _ _ Hi) as [row Hrow].
  assert (Hlen : length row = ncols P).
  { rewrite Forall_forall in HrP. apply HrP. by eapply list_elem_of_lookup_2. }
  assert (Hlen0 : length row0 = ncols P0).
  { rewrite Forall_forall in HrP0. apply HrP0. by eapply list_elem_of_lookup_2. }
  assert (Hjr : j < length row)
    by (apply lookup_lt_Some in Hj; lia).
  destruct (lookup_lt_is_Some_2 _ _ Hjr) as [x Hx].
  exists i, j, (zip_with fsub row row0). cbn [rows]. split.
  - rewrite lookup_zip_with, Hrow, Hrow0. done.
  - rewrite lookup_zip_with, Hx, Hj. cbn. by rewrite fsub_nan_r.
Qed.

(** X17. One missing value (NaN) among the baseline predictions turns
    every score into a missing value: on well-formed data and with a
    model that answers every table of that layout with an array of one
    shape, the call returns, and the score of every feature is NaN. *)
Theorem nan_in_baseline_makes_every_score_nan (w : world float MS) D P0 ms0 k :
  (forall l, kind l ≡ₚ l) ->
  heap w !! data data_set = Some D ->
  well_formed D ->
  Forall (fun f => f ∈ map fst (columns D)) (feature_ids data_set) ->
  (forall ms X, same_layout D X ->
     exists P ms', predict ms X = (Ok P, ms')
                   /\ well_shaped P /\ nrows P = index_len D /\ ncols P = k) ->
  predict (model_state w) D = (Ok P0, ms0) ->
  holds_nan P0 ->
  exists res w',
    feature_importance predict kind data_set w = (Ok res, w')
    /\ Forall (fun kv => snd kv = nan) res.
Proof.
  intros Hkind HD Hwf Hcols Hmodel Hp0 Hnan.
  rewrite feature_importance_unfold.
  destruct (raw_importances predict data_set w) as [res w'] eqn:Hraw.
  destruct (raw_importances_sound _ _ _ _ _ _ HD Hraw) as (evs & Hrr & _ & _).
  destruct (Hmodel (model_state w) D (same_layout_refl D Hwf))
    as (P & ms1 & Hp1 & Hws0 & Hn0 & Hk0).
  assert (P = P0) as -> by congruence.
  inversion Hrr as [e ms' Hp|P1 ms' evs' ? ? ? Hp Hloop]; subst; [congruence|].
  assert (P1 = P0) as -> by congruence.
  assert (Hmodel' : forall ms X, same_layout D X ->
            exists P ms', predict ms X = (Ok P, ms')
                          /\ nrows P = index_len D /\ ncols P = ncols P0).
  { intros ms X HX. destruct (Hmodel ms X HX) as (P & ms2 & ? & ? & ? & ?).
    by exists P, ms2. }
  destruct (loop_returns predict P0 D (ncols P0) Hwf Hmodel' Hn0 eq_refl
              _ _ _ _ _ _ _ _ Hloop Hcols) as (raw & ->).
  assert (Hall : Forall (fun kv => snd kv = nan) raw).
  { eapply (loop_Forall_passes predict (fun x => x = nan));
      [|exact Hloop|done|constructor].
    intros imp f r ms evs0 imp' r' ms2 Hit.
    destruct (iteration_Ok_inv _ _ _ _ _ _ _ _ _ _ _ _ Hit)
      as (samples & X & P & changes & Hpert & Hp2 & Hnd & _ & ->).
    exists (importance_of changes). split; [|done].
    pose proof (perturbed_layout _ _ _ _ _ _ _ Hwf Hpert) as Hlay.
    destruct (Hmodel ms X Hlay) as (P' & ms3 & Hp3 & HwsP & HnP & HkP).
    assert (P' = P) as -> by congruence.
    apply importance_of_nan.
    - by apply (nd_sub_well_shaped P P0 changes).
    - apply (nd_sub_holds_nan P P0 changes); try done; lia. }
  exists (normalize kind raw), w'. split; [done|].
  by rewrite (normalize_nans kind raw Hkind Hall).
Qed.


(** *** Scores that are missing *)

Lemma is_nan_eq (x : float) : PrimFloat.is_nan x = true -> x = nan.
Proof.
  intros Hnan. apply Prim2SF_inj. unfold Prim2SF at 1. by rewrite Hnan.
Qed.

(** Adding the positive zero to a sum leaves the sum as it is. *)
Lemma fadd_zero_r (acc : float) :
  sign_plus (Prim2SF acc) = true -> fadd acc 0%float = acc.
Proof.
  intros Hacc. apply Prim2SF_inj. cbn [fadd float_Num]. rewrite add_spec.
  change (Prim2SF 0) with (S754_zero false).
  by destruct (Prim2SF acc) as [[]|[]| |[] ? ?].
Qed.

Lemma fold_add_zeros (zs : list float) (acc : float) :
  sign_plus (Prim2SF acc) = true ->
  Forall (fun z => z = 0%float) zs ->
  fold_left fadd zs acc = acc.
Proof.
  intros Hacc. induction 1 as [|z zs -> _ IH]; cbn [fold_left]; [done|].
  by rewrite fadd_zero_r.
Qed.

Lemma present_present (raw : list (string * float)) :
  present (present raw) = present raw.
Proof.
  unfold present. induction raw as [|kv raw IH]; [done|]. cbn.
  destruct (PrimFloat.is_nan kv.2) eqn:Hnan; cbn; [done|]. by rewrite Hnan, IH.
Qed.

Lemma missing_present (raw : list (string * float)) : missing (present raw) = [].
Proof.
  unfold missing, present. induction raw as [|kv raw IH]; [done|]. cbn.
  destruct (PrimFloat.is_nan kv.2) eqn:Hnan; cbn; [done|]. by rewrite Hnan.
Qed.

(** Lines 72 and 73 set the missing scores aside: the features whose
    raw score is there get the scores they would get without the
    others, and the others follow with their missing values. *)
Lemma normalize_sets_missing_aside (raw : list (string * float)) :
  (forall l, kind l ≡ₚ l) ->
  Forall (fun kv => sign_clear (Prim2SF (snd kv)) = true) raw ->
  normalize kind raw = normalize kind (present raw) ++ missing raw.
Proof.
  intros Hkind Hclear.
  assert (Hs1 : sort_values kind raw = kind (present raw) ++ missing raw)
    by reflexivity.
  assert (Hs2 : sort_values kind (present raw) = kind (present raw)).
  { change (sort_values kind (present raw))
      with (kind (present (present raw)) ++ missing (present raw)).
    by rewrite present_present, missing_present, app_nil_r. }
  unfold normalize, Series_of_dict. rewrite Hs1, Hs2.
  set (sorted := kind (present raw)).
  assert (Hsorted : Forall (fun kv => sign_clear (Prim2SF (snd kv)) = true) sorted).
  { unfold sorted. rewrite (Hkind (present raw)). unfold present.
    apply List.Forall_forall. intros kv Hin. apply filter_In in Hin as [Hin _].
    rewrite List.Forall_forall in Hclear. by apply Hclear. }
  assert (Hmissing : Forall (fun kv => snd kv = nan) (missing raw)).
  { unfold missing. apply List.Forall_forall. intros kv Hin.
    apply filter_In in Hin as [_ Hnan]. by apply is_nan_eq. }
  assert (Hsum : Series_sum (sorted ++ missing raw) = Series_sum sorted).
  { unfold Series_sum, np_sum. rewrite map_app, fold_left_app.
    apply fold_add_zeros.
    - apply np_sum_sign_plus, Forall_map.
      eapply Forall_impl; [exact Hsorted|]. intros kv Hkv.
      cbn [snd fisnan fzero float_Num]. by destruct (PrimFloat.is_nan kv.2).
    - apply Forall_map. eapply Forall_impl; [exact Hmissing|].
      intros kv Hkv. cbn [snd fisnan fzero float_Num]. by rewrite Hkv. }
  rewrite Hsum. unfold Series_div. rewrite map_app. f_equal.
  rewrite <- (map_id (missing raw)) at 2.
  apply map_ext_Forall. eapply Forall_impl; [exact Hmissing|].
  intros [f x]. cbn. intros ->. by rewrite fdiv_nan_l.
Qed.


End Binary64Scores.

(* ------------------------------------------------------------------ *)
(** ** Scores in exact arithmetic *)

Section ExactScores.
Context {MS : Type}.
Variable predict : MS -> DataFrame R -> result (ndarray R) * MS.
Variable kind : sort_kind R.
Variable data_set : DataSet.

Local Open Scope R_scope.

(** No entry of a list of non-negative numbers exceeds their sum. *)
Lemma np_sum_ge_entry (l : list R) (x : R) :
  Forall (fun y => 0 <= y) l -> x ∈ l -> x <= np_sum l.
Proof.
  induction 1 as [|y l Hy Hl IH]; intros Hin.
  - by apply not_elem_of_nil in Hin.
  - rewrite np_sum_cons. pose proof (np_sum_nonneg l Hl).
    apply elem_of_cons in Hin as [->|Hin]; [lra|].
    specialize (IH Hin). lra.
Qed.

(** No real number is a missing value: [sort_values] sorts them all. *)
Lemma sort_values_exact (s : Series R) : sort_values kind s = kind s.
Proof.
  unfold sort_values. cbn [fisnan real_Num negb].
  rewrite filter_all, filter_none by (by apply Forall_true).
  apply app_nil_r.
Qed.

(** The raw scores of a call that returns are not negative. *)
Lemma raw_importances_nonneg (w w' : world R MS) raw :
  raw_importances predict data_set w = (Ok raw, w') ->
  Forall (fun kv => 0 <= snd kv) raw.
Proof.
  intros Hraw.
  destruct (heap w !! data data_set) as [D|] eqn:HD.
  2: { unfold raw_importances, call_predict, deref, bind in Hraw.
       by rewrite HD in Hraw. }
  destruct (raw_importances_sound _ _ _ _ _ _ HD Hraw) as (evs & Hrr & _ & _).
  inversion Hrr as [|P0 ms' evs' ? ? ? Hp Hloop]; subst.
  by eapply loop_nonneg.
Qed.

(** The sum the scores are divided by is positive when a raw score is
    not zero. *)
Lemma Series_sum_positive (raw : list (string * R)) :
  (forall l, kind l ≡ₚ l) ->
  Forall (fun kv => 0 <= snd kv) raw ->
  Exists (fun kv => snd kv <> 0) raw ->
  0 < Series_sum (sort_values kind raw).
Proof.
  intros Hkind Hpos Hex. rewrite Series_sum_exact. unfold total.
  rewrite (np_sum_Permutation _ (map snd raw))
    by (apply Permutation_map; by apply sort_values_perm).
  apply np_sum_positive.
  - by apply Forall_map.
  - apply List.Exists_exists in Hex as (kv & Hin & Hkv).
    apply List.Exists_exists. exists (snd kv). split; [by apply in_map|done].
Qed.


Lemma Sorted_map_monotone {A : Type} (Q Q' : A -> A -> Prop) (g : A -> A) (l : list A) :
  (forall x y, Q x y -> Q' (g x) (g y)) -> Sorted Q l -> Sorted Q' (map g l).
Proof.
  intros Hg. induction 1 as [|x l Hl IH Hhd]; cbn; constructor; [done|].
  destruct Hhd; cbn; constructor. by apply Hg.
Qed.



(** *** What a score of zero means *)

Lemma np_sum_zero_entries (l : list R) :
  Forall (fun x => 0 <= x) l -> np_sum l = 0 -> Forall (fun x => x = 0) l.
Proof.
  induction 1 as [|x l Hx Hl IH]; [constructor|].
  rewrite np_sum_cons. intros Hsum. pose proof (np_sum_nonneg l Hl).
  constructor; [lra|]. apply IH. lra.
Qed.

Lemma np_sum_of_zeros (l : list R) : Forall (fun x => x = 0) l -> np_sum l = 0.
Proof.
  induction 1 as [|x l -> _ IH]; [apply np_sum_nil|]. rewrite np_sum_cons. lra.
Qed.

Lemma np_sum_of_equals (l : list R) (c : R) :
  Forall (fun x => x = c) l -> np_sum l = INR (length l) * c.
Proof.
  induction 1 as [|x l -> _ IH].
  - rewrite np_sum_nil. cbn. lra.
  - rewrite np_sum_cons, IH. cbn [length]. rewrite S_INR. lra.
Qed.

(** The standard deviation of values that are there is zero exactly
    when they are all the same. *)
Lemma stddev_zero (xs : list R) :
  xs <> [] ->
  stddev xs = 0 <-> exists c, Forall (fun x => x = c) xs.
Proof.
  intros Hne.
  assert (Hn : 0 < INR (length xs)).
  { apply lt_0_INR. destruct xs; [done|cbn; lia]. }
  unfold stddev. cbn [fdiv fsub fmul fsqrt fof_nat real_Num].
  set (n := INR (length xs)) in *. set (mu := np_sum xs / n).
  set (sq := map (fun x => (x - mu) * (x - mu)) xs).
  assert (Hsq : Forall (fun y => 0 <= y) sq).
  { unfold sq. apply Forall_map, Forall_true. intros x. cbn.
    change (0 <= Rsqr (x - mu)). apply Rle_0_sqr. }
  pose proof (np_sum_nonneg sq Hsq) as Hsum.
  split.
  - intros Hzero. exists mu.
    assert (Hv : 0 <= np_sum sq / n).
    { unfold Rdiv. apply Rmult_le_pos; [done|]. by apply Rlt_le, Rinv_0_lt_compat. }
    apply (sqrt_eq_0 _ Hv) in Hzero.
    assert (Hs0 : np_sum sq = 0).
    { apply (Rmult_eq_reg_r (/ n)); [|by apply Rgt_not_eq, Rinv_0_lt_compat].
      unfold Rdiv in Hzero. lra. }
    pose proof (np_sum_zero_entries sq Hsq Hs0) as Hall.
    unfold sq in Hall. rewrite Forall_map in Hall.
    eapply Forall_impl; [exact Hall|]. intros x Hx. cbn in Hx.
    apply Rmult_integral in Hx. lra.
  - intros (c & Hc).
    assert (Hmu : mu = c).
    { unfold mu. rewrite (np_sum_of_equals xs c Hc). fold n. field. lra. }
    assert (Hs0 : np_sum sq = 0).
    { apply np_sum_of_zeros. unfold sq. apply Forall_map.
      eapply Forall_impl; [exact Hc|]. intros x ->. cbn. rewrite Hmu. ring. }
    rewrite Hs0. unfold Rdiv. rewrite Rmult_0_l. apply sqrt_0.
Qed.

Lemma stddev_nonneg (xs : list R) : 0 <= stddev xs.
Proof. unfold stddev. cbn [fsqrt real_Num]. apply sqrt_pos. Qed.




End ExactScores.

(* ------------------------------------------------------------------ *)
(** ** Another unit for the outputs of the model *)

Section Rescaling.
Context {MS : Type}.
Variable predict : MS -> DataFrame R -> result (ndarray R) * MS.
Variable kind : sort_kind R.
Variable data_set : DataSet.
Variables a b : R.

Local Open Scope R_scope.

Lemma rescale_well_shaped (P : ndarray R) :
  well_shaped P -> well_shaped (rescale a b P).
Proof.
  intros [Hn Hrows]. split; cbn; [by rewrite length_map|].
  apply Forall_map. eapply Forall_impl; [exact Hrows|].
  intros r Hr. cbn. by rewrite length_map.
Qed.

Lemma zip_with_map_both {A B : Type} (f : A -> A -> B) (f' : A -> A -> B)
    (g : A -> A) (h : B -> B) (l1 l2 : list A) :
  (forall x y, f' (g x) (g y) = h (f x y)) ->
  zip_with f' (map g l1) (map g l2) = map h (zip_with f l1 l2).
Proof.
  intros Hfg. revert l2. induction l1 as [|x l1 IH]; intros [|y l2]; cbn; [done..|].
  by rewrite Hfg, IH.
Qed.

(** Broadcasting and rescaling can be done in either order. *)
Lemma broadcast_to_rescale (P : ndarray R) n k :
  well_shaped P -> ncols P = k \/ ncols P = 1%nat ->
  broadcast_to n k (rescale a b P) =
    map (map (fun x => a * x + b)) (broadcast_to n k P).
Proof.
  intros [Hn Hrows] Hk. unfold broadcast_to. cbn [rows nrows ncols rescale].
  set (g := fun x : R => a * x + b).
  assert (Hst : map (fun r => if Nat.eqb (ncols P) k then r else replicate k (hd fzero r))
                  (map (map g) (rows P))
                = map (map g) (map (fun r => if Nat.eqb (ncols P) k then r
                                             else replicate k (hd fzero r)) (rows P))).
  { rewrite !map_map. apply map_ext_Forall.
    eapply Forall_impl; [exact Hrows|]. intros r Hr. cbn.
    destruct (Nat.eqb_spec (ncols P) k) as [|Hne]; [done|].
    rewrite map_replicate. f_equal.
    destruct r as [|x r]; [cbn in Hr; lia|done]. }
  rewrite Hst.
  generalize (map (fun r => if Nat.eqb (ncols P) k then r
                            else replicate k (hd fzero r)) (rows P)).
  intros rs. destruct (Nat.eqb (nrows P) n); [done|].
  rewrite map_replicate. f_equal. by destruct rs.
Qed.

(** The delta of rescaled predictions is the delta, multiplied by
    [a]: the shift [b] cancels. *)
Lemma nd_sub_rescale (P P0 : ndarray R) :
  well_shaped P -> well_shaped P0 ->
  nd_sub (rescale a b P) (rescale a b P0) =
    match nd_sub P P0 with
    | Ok changes => Ok (rescale a 0 changes)
    | Raise e => Raise e
    end.
Proof.
  intros HP HP0. unfold nd_sub. cbn [nrows ncols rescale].
  destruct (broadcast_dim (nrows P) (nrows P0)) as [n|] eqn:Hn; [|done].
  destruct (broadcast_dim (ncols P) (ncols P0)) as [k|] eqn:Hk; [|done].
  apply broadcast_dim_Some in Hk as [Hk Hk0].
  change (NdArray (nrows P) (ncols P) (map (map (fun x => a * x + b)) (rows P)))
    with (rescale a b P).
  change (NdArray (nrows P0) (ncols P0) (map (map (fun x => a * x + b)) (rows P0)))
    with (rescale a b P0).
  rewrite !broadcast_to_rescale by done.
  unfold rescale. cbn [nrows ncols rows]. do 2 f_equal.
  apply zip_with_map_both. intros r1 r2.
  apply zip_with_map_both. intros x y. cbn. lra.
Qed.

Lemma np_sum_scale (c : R) (l : list R) :
  np_sum (map (fun x => c * x) l) = c * np_sum l.
Proof.
  induction l as [|x l IH]; cbn [map].
  - rewrite np_sum_nil. lra.
  - rewrite !np_sum_cons, IH. lra.
Qed.

(** The standard deviation of values multiplied by [a]. *)
Lemma stddev_scale (xs : list R) :
  stddev (map (fun x => a * x) xs) = Rabs a * stddev xs.
Proof.
  unfold stddev. rewrite length_map.
  cbn [fdiv fsub fmul fsqrt fof_nat real_Num].
  rewrite np_sum_scale, map_map.
  set (n := INR (length xs)). set (mu := np_sum xs / n).
  rewrite (map_ext _ (fun x => (a * a) * ((x - mu) * (x - mu))))
    by (intros x; unfold mu, Rdiv; ring).
  rewrite <- (map_map (fun x => (x - mu) * (x - mu)) (fun y => (a * a) * y)).
  rewrite np_sum_scale.
  replace (a * a * np_sum (map (fun x => (x - mu) * (x - mu)) xs) / n)
    with (Rsqr a * (np_sum (map (fun x => (x - mu) * (x - mu)) xs) / n))
    by (unfold Rsqr, Rdiv; ring).
  rewrite sqrt_mult_alt by apply Rle_0_sqr.
  by rewrite sqrt_Rsqr_abs.
Qed.

Lemma column_rescale (changes : ndarray R) j :
  column (rescale a 0 changes) j = map (fun x => a * x) (column changes j).
Proof.
  unfold column. cbn [rows rescale]. rewrite !map_map.
  apply map_ext. intros r. cbn [fzero real_Num].
  replace 0 with ((fun x => a * x + 0) 0) at 1 by (cbn; lra).
  rewrite (map_nth (fun x => a * x + 0)). lra.
Qed.

(** The score of a delta multiplied by [a] is the score multiplied by
    the magnitude of [a]. *)
Lemma importance_of_rescale (changes : ndarray R) :
  well_shaped changes ->
  importance_of (rescale a 0 changes) = Rabs a * importance_of changes.
Proof.
  intros Hws.
  assert (Hws' : well_shaped (rescale a 0 changes)).
  { destruct Hws as [Hn Hrows]. split; cbn; [by rewrite length_map|].
    apply Forall_map. eapply Forall_impl; [exact Hrows|].
    intros r Hr. cbn. by rewrite length_map. }
  rewrite (importance_of_spec _ Hws'), (importance_of_spec _ Hws).
  unfold spec_importance. cbn [ncols rescale fdiv fof_nat real_Num].
  rewrite (map_ext _ (fun j => Rabs a * stddev (column changes j)))
    by (intros j; by rewrite column_rescale, stddev_scale).
  rewrite <- (map_map (fun j => stddev (column changes j)) (fun y => Rabs a * y)).
  rewrite np_sum_scale. unfold Rdiv. ring.
Qed.

Lemma alist_set_scaled (c : R) imp f v :
  alist_set (scaled c imp) f (c * v) = scaled c (alist_set imp f v).
Proof.
  unfold scaled. induction imp as [|[k x] imp IH]; cbn; [done|].
  destruct (String.eqb k f); cbn; [done|]. by rewrite IH.
Qed.

Lemma alist_get_scaled (c : R) imp f :
  alist_get (scaled c imp) f = option_map (fun x => c * x) (alist_get imp f).
Proof.
  unfold scaled. induction imp as [|[k x] imp IH]; cbn; [done|].
  by destruct (String.eqb k f).
Qed.

Hypothesis model_well_shaped :
  forall ms X P ms', predict ms X = (Ok P, ms') -> well_shaped P.

(** The rescaled model takes every pass of the loop the same way. *)
Lemma iteration_rescaled P0 n D imp f r ms evs res r' ms' :
  well_shaped P0 ->
  iteration predict P0 n D imp f r ms evs res r' ms' ->
  exists evs',
    iteration (rescaled a b predict) (rescale a b P0) n D (scaled (Rabs a) imp) f r ms
      evs' (scaled_outcome (Rabs a) res) r' ms'.
Proof.
  intros HP0. inversion 1 as [e r1 Hpert|samples X e r1 ms1 Hpert Hp
                              |samples X P e r1 ms1 Hpert Hp Hnd
                              |samples X P changes r1 ms1 Hpert Hp Hnd]; subst.
  - eexists. by apply it_refused.
  - eexists. eapply it_predict_raises; [done|]. unfold rescaled. by rewrite Hp.
  - eexists. eapply it_shapes_differ; [done|unfold rescaled; by rewrite Hp|].
    rewrite nd_sub_rescale by eauto. by rewrite Hnd.
  - eexists. cbn [scaled_outcome].
    assert (Hch : well_shaped changes)
      by (apply (nd_sub_well_shaped P P0 changes); eauto).
    rewrite <- alist_set_scaled, <- (importance_of_rescale changes Hch).
    eapply it_scored; [done|unfold rescaled; by rewrite Hp|].
    rewrite nd_sub_rescale by eauto. by rewrite Hnd.
Qed.

Lemma loop_rescaled P0 n D fids imp r ms evs res r' ms' :
  well_shaped P0 ->
  loop predict P0 n D fids imp r ms evs res r' ms' ->
  exists evs',
    loop (rescaled a b predict) (rescale a b P0) n D fids (scaled (Rabs a) imp) r ms
      evs' (scaled_outcome (Rabs a) res) r' ms'.
Proof.
  intros HP0.
  induction 1 as [imp r ms|f fs imp r ms evs e r' ms' Hit
                  |f fs imp r ms evs imp' r' ms' evs' res r'' ms'' Hit Hloop IH].
  - eexists. constructor.
  - destruct (iteration_rescaled _ _ _ _ _ _ _ _ _ _ _ HP0 Hit) as (evs2 & Hit2).
    eexists. by apply loop_raises.
  - destruct (iteration_rescaled _ _ _ _ _ _ _ _ _ _ _ HP0 Hit) as (evs2 & Hit2).
    destruct IH as (evs3 & Hloop3).
    eexists. by eapply loop_next.
Qed.

Lemma raw_run_rescaled D r ms evs res r' ms' :
  raw_run predict data_set D r ms evs res r' ms' ->
  exists evs',
    raw_run (rescaled a b predict) data_set D r ms
      evs' (scaled_outcome (Rabs a) res) r' ms'.
Proof.
  inversion 1 as [e ms1 Hp|P0 ms1 evs1 ? ? ? Hp Hloop]; subst.
  - eexists. apply raw_baseline_raises. unfold rescaled. by rewrite Hp.
  - destruct (loop_rescaled _ _ _ _ _ _ _ _ _ _ _ (model_well_shaped _ _ _ _ Hp) Hloop)
      as (evs2 & Hloop2).
    eexists. eapply raw_baseline; [unfold rescaled; by rewrite Hp|].
    exact Hloop2.
Qed.

(** The raw scores under the rescaled model. *)
Lemma raw_importances_rescaled (w : world R MS) :
  fst (raw_importances (rescaled a b predict) data_set w) =
    scaled_outcome (Rabs a) (fst (raw_importances predict data_set w)).
Proof.
  destruct (heap w !! data data_set) as [D|] eqn:HD.
  2: { unfold raw_importances, call_predict, deref, bind. by rewrite HD. }
  destruct (raw_importances predict data_set w) as [res w1] eqn:Hraw.
  destruct (raw_importances (rescaled a b predict) data_set w) as [res2 w2] eqn:Hraw2.
  destruct (raw_importances_sound _ _ _ _ _ _ HD Hraw) as (evs & Hrr & _ & _).
  destruct (raw_importances_sound _ _ _ _ _ _ HD Hraw2) as (evs2 & Hrr2 & _ & _).
  destruct (raw_run_rescaled _ _ _ _ _ _ _ Hrr) as (evs3 & Hrr3).
  by destruct (raw_run_det _ _ _ _ _ _ _ _ _ _ _ _ _ Hrr2 Hrr3) as (-> & _ & _).
Qed.


End Rescaling.

(* ------------------------------------------------------------------ *)
(** ** The engine on concrete data *)

Lemma as_predictions_well_shaped {F : Type} (c : list F) :
  well_shaped (as_predictions c).
Proof.
  split; cbn; [by rewrite length_map|].
  apply Forall_map, Forall_true. done.
Qed.

Lemma model_sum_well_shaped {F : Type} {N : Num F} (f1 f2 : string) :
  forall ms X P ms', model_sum f1 f2 ms X = (Ok P, ms') -> well_shaped P.
Proof.
  intros ms X P ms'. unfold model_sum.
  destruct (df_getitem X f1), (df_getitem X f2); intros [= <- _];
    apply as_predictions_well_shaped.
Qed.

(** The exact example: one feature, raw importance 2. *)
Lemma exact_raw_importances :
  raw_importances (model_column "a") exact_set exact_world =
    (Ok [("a", importance_of (NdArray 2 1 [[2 - 0]; [0 - 2]])%R)],
     snd (raw_importances (model_column "a") exact_set exact_world)).
Proof. vm_compute. reflexivity. Qed.

Lemma exact_importance :
  importance_of (NdArray 2 1 [[2 - 0]; [0 - 2]])%R = 2%R.
Proof.
  unfold importance_of, np_mean, np_std_axis0, np_sum_axis0, np_sum.
  cbn -[Rplus Rminus Rmult Rdiv sqrt INR].
  match goal with
  | |- context [sqrt ?x] => replace x with (2 * 2)%R by (cbn [INR]; field)
  end.
  rewrite sqrt_square by lra. cbn [INR]. field.
Qed.

Lemma scenario_run_eq :
  scenario_run = (Ok scenario_result, snd scenario_run).
Proof. vm_compute. reflexivity. Qed.

Lemma scenario_frame_stored :
  heap scenario_world !! data scenario_set = Some scenario_frame.
Proof. reflexivity. Qed.



(** C5 on the scenario of section 8. *)
Lemma result_keys_are_feature_ids_witness :
  NoDup (map fst scenario_result)
  /\ forall f, f ∈ map fst scenario_result <-> f ∈ ["f1"; "f2"].
Proof.
  apply (result_keys_are_feature_ids (model_sum "f1" "f2") insertion_sort
           scenario_set scenario_world (snd scenario_run) scenario_result).
  - apply insertion_sort_perm.
  - exact scenario_run_eq.
Defined.

(** C6 on the scenario of section 8. *)
Lemma dataset_never_modified_witness :
  heap (snd scenario_run) !! 1%positive = Some scenario_frame.
Proof.
  apply (dataset_never_modified (model_sum "f1" "f2") insertion_sort
           scenario_set scenario_world (snd scenario_run) (Ok scenario_result)).
  - exact scenario_frame_stored.
  - exact scenario_run_eq.
Defined.

Lemma failing_run_eq :
  failing_run = (fst failing_run, snd failing_run).
Proof. apply surjective_pairing. Qed.

(** C8 on a model that fails on its second call: the call raises the
    model's exception, and the trace ends with the failing call. *)
Lemma model_failure_propagates_witness :
  fst failing_run = Raise (Exn "RuntimeError" "model failure")
  /\ exists pre X,
       trace (snd failing_run) =
         pre ++ [EvPredict X (Raise (Exn "RuntimeError" "model failure"))].
Proof.
  destruct (model_failure_propagates (model_failing "f1" 1) insertion_sort
              scenario_set scenario_world (snd failing_run) (fst failing_run)
              scenario_frame scenario_frame_stored failing_run_eq)
    as (evs & Htr & Hstop).
  set (X := MkDataFrame 4 [("f1", [2; 1; 4; 3]%float); ("f2", [4; 3; 2; 1]%float)]).
  set (pre := [EvPredict scenario_frame (Ok (as_predictions [1; 2; 3; 4]%float));
               EvSample "f1" 4 "random-choice"]).
  assert (Hevs : evs = pre ++ [EvPredict X (Raise (Exn "RuntimeError" "model failure"))]).
  { apply (app_inv_head (trace scenario_world)). rewrite <- Htr.
    vm_compute. reflexivity. }
  destruct (Hstop pre X _ [] Hevs) as [_ Hres].
  split; [exact Hres|]. exists pre, X. rewrite Htr, Hevs. reflexivity.
Defined.




(** C2 on the scenario's data with a model that always predicts 1.5. *)
Lemma constant_model_scores_are_nan_witness :
  exists raw res w',
    raw_importances (model_constant 4 1.5%float) scenario_set scenario_world =
      (Ok raw, w')
    /\ Forall (fun kv => snd kv = 0%float) raw
    /\ feature_importance (model_constant 4 1.5%float) insertion_sort scenario_set
         scenario_world = (Ok res, w')
    /\ Forall (fun kv => snd kv = nan) res.
Proof.
  apply (constant_model_scores_are_nan (model_constant 4 1.5%float) insertion_sort
           scenario_set scenario_world scenario_frame
           (NdArray 4 1 (replicate 4 [1.5%float]))).
  - apply insertion_sort_perm.
  - exact scenario_frame_stored.
  - repeat constructor; eexists; split; reflexivity.
  - split; [reflexivity|]. repeat constructor.
  - reflexivity.
  - repeat constructor.
  - cbn. lia.
  - cbn. lia.
  - intros ms X. eexists. reflexivity.
Defined.

(** C2: the constant model makes every raw importance zero, and the
    call returns missing values; it raises nothing. *)
Lemma constant_model_raises_nothing :
  fst (raw_importances (model_constant 4 1.5%float) scenario_set scenario_world) =
    Ok [("f1", 0%float); ("f2", 0%float)]
  /\ fst constant_run = Ok [("f1", nan); ("f2", nan)].
Proof. split; vm_compute; reflexivity. Qed.

Lemma empty_frame_stored :
  heap empty_world !! data scenario_set = Some empty_frame.
Proof. reflexivity. Qed.

(** C7 on the data set without rows. *)
Lemma empty_dataset_scores_are_nan_witness :
  exists w',
    feature_importance (model_constant 0 1.5%float) insertion_sort scenario_set
      empty_world = (Ok [("f1", nan); ("f2", nan)], w').
Proof.
  apply (empty_dataset_scores_are_nan (model_constant 0 1.5%float) insertion_sort
           scenario_set empty_world empty_frame 1).
  - apply insertion_sort_perm.
  - exact empty_frame_stored.
  - reflexivity.
  - repeat constructor.
  - intros ms X _. eexists. reflexivity.
Defined.

(** C7: on the data set without rows the call returns; it raises no
    [ConfigurationError]. Nor does it when there is no feature either,
    and the sampler is never asked. *)
Lemma empty_dataset_raises_nothing :
  index_len empty_frame = 0
  /\ fst empty_run = Ok [("f1", nan); ("f2", nan)]
  /\ fst (feature_importance (model_constant 0 1.5%float) insertion_sort
            (MkDataSet 1%positive []) empty_world) = Ok [].
Proof. repeat split; vm_compute; reflexivity. Qed.

(* ------------------------------------------------------------------ *)
(** ** The further facts on concrete data *)

Lemma model_sum_answers (f1 f2 : string) (D X : DataFrame float) (ms : nat) :
  map fst (columns D) = [f1; f2] ->
  same_layout D X ->
  exists P ms', model_sum f1 f2 ms X = (Ok P, ms')
                /\ nrows P = index_len D /\ ncols P = 1.
Proof.
  intros Hnames (Hidx & Hcols & Hwf). rewrite Hnames in Hcols.
  destruct X as [n cols]. cbn in *. subst n.
  destruct cols as [|[k1 c1] [|[k2 c2] [|? ?]]]; try discriminate.
  injection Hcols as -> ->.
  inversion Hwf as [|? ? H1 Hwf']; subst. inversion Hwf' as [|? ? H2 _]; subst.
  cbn in H1, H2. unfold model_sum, df_getitem. cbn [columns alist_get].
  rewrite String.eqb_refl.
  destruct (String.eqb f1 f2); rewrite ?String.eqb_refl;
    eexists _, _; (split; [reflexivity|]);
    cbn; rewrite length_zip_with; split; lia.
Qed.


(** X3 on the scenario's data and a model that answers with three
    rows. *)
Lemma row_count_mismatch_raises_ValueError_witness :
  exists msg w',
    feature_importance (model_constant 3 1.5%float) insertion_sort scenario_set
      scenario_world = (Raise (ValueError msg), w')
    /\ trace w' =
         trace scenario_world
           ++ [EvPredict scenario_frame (Ok (NdArray 3 1 (replicate 3 [1.5%float])));
               EvSample "f1" 3 "random-choice"].
Proof.
  apply (row_count_mismatch_raises_ValueError (model_constant 3 1.5%float)
           insertion_sort scenario_set scenario_world scenario_frame
           (NdArray 3 1 (replicate 3 [1.5%float])) 1 "f1" ["f2"] [1; 2; 3; 4]%float).
  - exact scenario_frame_stored.
  - reflexivity.
  - reflexivity.
  - reflexivity.
  - cbn. lia.
Defined.

(** X4 on the scenario's data and a feature identifier that names no
    column. *)
Lemma unknown_feature_never_returns_witness :
  exists e w',
    feature_importance (model_sum "f1" "f2") insertion_sort
      (MkDataSet 1%positive ["f1"; "zz"]) scenario_world = (Raise e, w').
Proof.
  apply (unknown_feature_never_returns (model_sum "f1" "f2") insertion_sort
           (MkDataSet 1%positive ["f1"; "zz"]) scenario_world scenario_frame "zz").
  - exact scenario_frame_stored.
  - cbn. repeat constructor.
  - cbn. intros Hin. repeat (apply elem_of_cons in Hin as [Hin|Hin]; [discriminate|]).
    by apply not_elem_of_nil in Hin.
Defined.

Lemma ignoring_raw_eq :
  raw_importances (model_column "f1") scenario_set scenario_world =
    (Ok ignoring_raw, snd (raw_importances (model_column "f1") scenario_set scenario_world)).
Proof. vm_compute. reflexivity. Qed.

Lemma model_column_ignores (f g : string) :
  g <> f ->
  forall (ms ms1 : nat) (X : DataFrame float) values X',
    df_setitem X g values = Ok X' ->
    fst (model_column f ms X') = fst (model_column f ms1 X).
Proof.
  intros Hne ms ms1 X values X'. unfold df_setitem.
  destruct (Nat.eqb _ _); [|done]. intros [= <-].
  unfold model_column, df_getitem. cbn [columns].
  rewrite alist_get_set_ne by done.
  by destruct (alist_get (columns X) f).
Qed.

(** X5 on the scenario's data and the model [predict(x) = x[f1]]: the
    feature [f2] scores zero, before and after the division. *)
Lemma ignored_feature_scores_zero_witness :
  alist_get ignoring_raw "f2" = Some 0%float
  /\ alist_get (normalize insertion_sort ignoring_raw) "f2" = Some 0%float.
Proof.
  destruct (ignored_feature_scores_zero (model_column "f1") insertion_sort
              scenario_set scenario_world
              (snd (raw_importances (model_column "f1") scenario_set scenario_world))
              scenario_frame (as_predictions [1; 2; 3; 4]%float) 1 ignoring_raw "f2")
    as [Hraw Hres].
  - apply insertion_sort_perm.
  - exact scenario_frame_stored.
  - reflexivity.
  - apply as_predictions_well_shaped.
  - repeat constructor.
  - cbn. lia.
  - cbn. lia.
  - by apply model_column_ignores.
  - cbn. repeat constructor.
  - exact ignoring_raw_eq.
  - split; [exact Hraw|]. apply Hres. vm_compute. reflexivity.
Defined.

Lemma constant_column_raw_eq :
  raw_importances (model_sum "f1" "c") constant_column_set constant_column_world =
    (Ok constant_column_raw,
     snd (raw_importances (model_sum "f1" "c") constant_column_set
            constant_column_world)).
Proof. vm_compute. reflexivity. Qed.

(** X6 on a table whose column [c] holds 7 in every row. *)
Lemma constant_column_scores_zero_witness :
  alist_get constant_column_raw "c" = Some 0%float.
Proof.
  apply (constant_column_scores_zero (model_sum "f1" "c") constant_column_set
           constant_column_world
           (snd (raw_importances (model_sum "f1" "c") constant_column_set
                   constant_column_world))
           constant_column_frame (as_predictions [8; 9; 10; 11]%float) 1
           constant_column_raw "c" [7; 7; 7; 7]%float 7%float).
  - reflexivity.
  - reflexivity.
  - apply as_predictions_well_shaped.
  - repeat constructor.
  - cbn. lia.
  - cbn. lia.
  - intros ms ms1 X. unfold model_sum.
    by destruct (df_getitem X "f1"), (df_getitem X "c").
  - reflexivity.
  - repeat constructor.
  - cbn. repeat constructor.
  - exact constant_column_raw_eq.
Defined.

Lemma scenario_raw_eq :
  raw_importances (model_sum "f1" "f2") scenario_set scenario_world =
    (Ok scenario_raw, snd (raw_importances (model_sum "f1" "f2") scenario_set scenario_world)).
Proof. vm_compute. reflexivity. Qed.

(** X12 on the scenario of section 8. *)
Lemma scores_never_negative_witness :
  exists res,
    feature_importance (model_sum "f1" "f2") insertion_sort scenario_set
      scenario_world
    = (Ok res, snd (raw_importances (model_sum "f1" "f2") scenario_set scenario_world))
    /\ Forall (fun kv => not_negative (snd kv)) scenario_raw
    /\ Forall (fun kv => not_negative (snd kv)) res.
Proof.
  apply (scores_never_negative (model_sum "f1" "f2") insertion_sort scenario_set
           scenario_world).
  - apply insertion_sort_perm.
  - exact scenario_raw_eq.
Defined.

(** The comparison of real numbers is a strict one. *)
Lemma Rltb_asym (x y : R) : fltb x y = true -> fltb y x = false.
Proof.
  cbn [fltb real_Num]. destruct (Rlt_dec x y), (Rlt_dec y x); try done. lra.
Qed.

Lemma exact_raw_nonzero :
  Exists (fun kv : string * R => snd kv <> 0%R)
    [("a", importance_of (NdArray 2 1 [[2 - 0]; [0 - 2]])%R)].
Proof. constructor. cbn [snd]. rewrite exact_importance. lra. Qed.



Lemma model_column_well_shaped {F : Type} {N : Num F} (f : string) :
  forall ms (X : DataFrame F) P ms',
    model_column f ms X = (Ok P, ms') -> well_shaped P.
Proof.
  intros ms X P ms'. unfold model_column.
  destruct (df_getitem X f); intros [= <- _]; [apply as_predictions_well_shaped].
Qed.


Lemma plot_run_eq : plot_run = (Ok tt, snd plot_run).
Proof. vm_compute. reflexivity. Qed.


(** X11 on the scenario's data and no feature. *)
Lemma no_features_empty_result_witness :
  feature_importance (model_sum "f1" "f2") insertion_sort (MkDataSet 1%positive [])
    scenario_world =
    (Ok [], World (heap scenario_world) (rng scenario_world) 1
              (trace scenario_world
                 ++ [EvPredict scenario_frame (Ok (as_predictions [5; 5; 5; 5]%float))])).
Proof.
  apply (no_features_empty_result (model_sum "f1" "f2") insertion_sort
           (MkDataSet 1%positive []) scenario_world scenario_frame
           (as_predictions [5; 5; 5; 5]%float) 1).
  - apply insertion_sort_perm.
  - exact scenario_frame_stored.
  - reflexivity.
  - reflexivity.
Defined.


(** X14 on the scenario of section 8. *)
Lemma model_sees_layout_of_data_witness :
  exists evs,
    trace (snd scenario_run) = trace scenario_world ++ evs
    /\ Forall (fun call => same_layout scenario_frame (fst call)) (predict_calls evs).
Proof.
  apply (model_sees_layout_of_data (model_sum "f1" "f2") insertion_sort scenario_set
           scenario_world (snd scenario_run) (Ok scenario_result) scenario_frame).
  - exact scenario_frame_stored.
  - repeat constructor.
  - exact scenario_run_eq.
Defined.


Lemma shrinking_run_eq : shrinking_run = (fst shrinking_run, snd shrinking_run).
Proof. apply surjective_pairing. Qed.

(** X16 on a model that answers the baseline with four rows and the
    table of the first feature with three. *)
Lemma unbroadcastable_answer_raises_ValueError_witness :
  exists msg, fst shrinking_run = Raise (ValueError msg).
Proof.
  destruct (unbroadcastable_answer_raises_ValueError model_shrinking insertion_sort
              scenario_set scenario_world (snd shrinking_run) (fst shrinking_run)
              scenario_frame scenario_frame_stored shrinking_run_eq)
    as (evs & Htr & Hstop).
  set (X := MkDataFrame 4 [("f1", [2; 1; 4; 3]%float); ("f2", [4; 3; 2; 1]%float)]).
  set (P0 := NdArray 4 1 (replicate 4 [1.5%float])).
  set (P := NdArray 3 1 (replicate 3 [1.5%float])).
  assert (Hevs : evs = EvPredict scenario_frame (Ok P0)
                         :: [EvSample "f1" 4 "random-choice"]
                         ++ EvPredict X (Ok P) :: []).
  { apply (app_inv_head (trace scenario_world)). rewrite <- Htr.
    vm_compute. reflexivity. }
  destruct (Hstop P0 _ X P [] Hevs (or_introl eq_refl)) as [_ Hres].
  exact Hres.
Defined.

Lemma model_sum_answers_well_shaped (f1 f2 : string) (D X : DataFrame float) (ms : nat) :
  map fst (columns D) = [f1; f2] ->
  same_layout D X ->
  exists P ms', model_sum f1 f2 ms X = (Ok P, ms')
                /\ well_shaped P /\ nrows P = index_len D /\ ncols P = 1.
Proof.
  intros Hnames Hlay.
  destruct (model_sum_answers f1 f2 D X ms Hnames Hlay) as (P & ms' & Hp & Hn & Hk).
  exists P, ms'. split; [done|]. split; [|done].
  by eapply model_sum_well_shaped.
Qed.

(** X17 on the scenario's data with one value missing in [f2]: the
    baseline prediction of the second row is NaN, and so is every
    score. *)
Lemma nan_in_baseline_makes_every_score_nan_witness :
  exists res w',
    feature_importance (model_sum "f1" "f2") insertion_sort scenario_set gap_world
      = (Ok res, w')
    /\ Forall (fun kv => snd kv = nan) res.
Proof.
  apply (nan_in_baseline_makes_every_score_nan (model_sum "f1" "f2") insertion_sort
           scenario_set gap_world gap_frame
           (as_predictions [5; nan; 5; 5]%float) 1 1).
  - apply insertion_sort_perm.
  - reflexivity.
  - repeat constructor.
  - repeat constructor.
  - intros ms X. by apply model_sum_answers_well_shaped.
  - reflexivity.
  - exists 1, 0, [nan]. split; reflexivity.
Defined.

Lemma blackout_raw_eq :
  raw_importances model_blackout scenario_set scenario_world =
    (Ok blackout_raw, snd (raw_importances model_blackout scenario_set scenario_world)).
Proof. vm_compute. reflexivity. Qed.

